(** * AgileRL: tournament selection, mutation probabilities and weight
      transplantation

    A shallow embedding of [agilerl/hpo/tournament.py] and
    [agilerl/networks/base.py], with the properties the specification
    states about them.

    Conventions.
    - Python [int]s are [Z]; list positions and tensor sizes are [nat].
    - Python [float]s that are only compared, averaged or divided are
      exact rationals [Qc]: rounding, infinities and [nan] are outside
      the model.
    - A Python call that may raise returns [res A]: [Ok v] or [Raise e]. *)

From Stdlib Require Import QArith Qcanon.
From stdpp Require Import base numbers list sorting strings gmap.

Local Open Scope Z_scope.

(** ** Python exceptions *)

Inductive exn : Type :=
  | AssertionError (msg : string)
  | ValueError
  | IndexError
  | ZeroDivisionError
  | RuntimeError.

Inductive res (A : Type) : Type :=
  | Ok (a : A)
  | Raise (e : exn).
Arguments Ok {A} a.
Arguments Raise {A} e.

Global Instance res_bind : MBind res := λ A B k m,
  match m with
  | Ok a => k a
  | Raise e => Raise e
  end.

(** A Python object as far as the constructor's [isinstance] check can
    tell them apart. *)
Inductive pyobj : Type :=
  | PyBool (b : bool)
  | PyInt (z : Z)
  | PyStr (s : string)
  | PyNone.

Definition isinstance_bool (o : pyobj) : bool :=
  match o with PyBool _ => true | _ => false end.

(** Truth value of an object, as [if o:] takes it. *)
Definition truthy (o : pyobj) : bool :=
  match o with
  | PyBool b => b
  | PyInt z => negb (z =? 0)
  | PyStr s => negb (String.eqb s "")
  | PyNone => false
  end.

(** ** numpy helpers *)

(** [l[start:]] for a Python list. *)
Definition slice_from {A} (start : Z) (l : list A) : list A :=
  if start <? 0
  then drop (length l - Z.to_nat (- start))%nat l
  else drop (Z.to_nat start) l.

Definition Qc_sum (l : list Qc) : Qc := foldr Qcplus 0%Qc l.

(** [np.mean] of a non-empty list. On the empty list numpy answers
    [nan]; here the quotient by zero is [0], and every statement that
    reads a mean assumes the list non-empty. *)
Definition np_mean (l : list Qc) : Qc :=
  (Qc_sum l / Qc_of_Z (Z.of_nat (length l)))%Qc.

(** [vals[p]]: the values at the positions listed in [p]. *)
Definition take_idx {A} (vals : list A) (p : list nat) : list A :=
  omap (λ i, vals !! i) p.

(** What [np.argsort] promises: a permutation of the positions that
    lists the values in ascending order. The order among equal values
    is left to the sorting routine. *)
Definition is_argsort {A} (R : relation A) (vals : list A) (p : list nat) : Prop :=
  p ≡ₚ seq 0 (length vals) ∧ StronglySorted R (take_idx vals p).

(** [np.argmax]: position of the first maximal entry; [ValueError] on an
    empty sequence. *)
Fixpoint argmax_from (best : nat) (bi : nat) (i : nat) (l : list nat) : nat :=
  match l with
  | [] => bi
  | x :: l' =>
      if (best <? x)%nat then argmax_from x i (S i) l'
      else argmax_from best bi (S i) l'
  end.

Definition np_argmax (l : list nat) : res nat :=
  match l with
  | [] => Raise ValueError
  | x :: l' => Ok (argmax_from x 0 1 l')
  end.

(** [max(l)] for a list of Python ints. *)
Definition py_max (l : list Z) : res Z :=
  match l with
  | [] => Raise ValueError
  | x :: l' => Ok (foldl Z.max x l')
  end.

(** A list comprehension [[f x for x in l]] whose body may raise. *)
Fixpoint res_mapM {A B} (f : A → res B) (l : list A) : res (list B) :=
  match l with
  | [] => Ok []
  | x :: l' => y ← f x ; ys ← res_mapM f l' ; Ok (y :: ys)
  end.

(** [l[i]] for a list and a non-negative position. *)
Definition getitem {A} (l : list A) (i : nat) : res A :=
  match l !! i with
  | Some a => Ok a
  | None => Raise IndexError
  end.

(** The numpy routines the selection calls: [np.argsort] on float and on
    integer arrays, and [np.random.randint(0, high, size)] on the state
    of [np.random]. *)
Class Numpy : Type := {
  rng : Type;
  argsort_float : list Qc → list nat;
  argsort_int : list nat → list nat;
  randint : nat → nat → rng → list nat * rng
}.

(** What the routines promise. [randint] draws [size] positions below
    [high] when [0 < high]. *)
Class NumpyLaws (np : Numpy) : Prop := {
  argsort_float_spec : ∀ vals, is_argsort Qcle vals (argsort_float vals);
  argsort_int_spec : ∀ vals, is_argsort le vals (argsort_int vals);
  randint_spec : ∀ high size g,
    (0 < high)%nat →
    length (randint high size g).1 = size ∧
    Forall (λ i, (i < high)%nat) (randint high size g).1
}.

(** *** A reference implementation of the routines

    A stable merge sort on (position, value) pairs and a linear
    congruential generator. *)
Module RefNumpy.

Definition by_value {A} (R : relation A) : relation (nat * A) :=
  λ x y, R x.2 y.2.

Global Instance by_value_dec {A} (R : relation A) `{!RelDecision R} :
  RelDecision (by_value R) := λ x y, decide_rel R x.2 y.2.

Definition argsort {A} (R : relation A) `{!RelDecision R} (vals : list A) : list nat :=
  (merge_sort (by_value R) (zip (seq 0 (length vals)) vals)).*1.

Definition lcg_next (s : Z) : Z := (s * 1103515245 + 12345) `mod` 2147483648.

Fixpoint lcg_draws (high : nat) (size : nat) (s : Z) : list nat * Z :=
  match size with
  | O => ([], s)
  | S size' =>
      let s' := lcg_next s in
      let '(l, s'') := lcg_draws high size' s' in
      (Z.to_nat (s' `mod` Z.of_nat high) :: l, s'')
  end.

Global Instance numpy : Numpy := {|
  rng := Z;
  argsort_float := argsort Qcle;
  argsort_int := argsort le;
  randint := lcg_draws
|}.

End RefNumpy.

(** ** [agilerl/hpo/tournament.py] *)

Module Tournament.

Record TournamentSelection : Type := {
  tournament_size : Z;
  elitism : pyobj;
  population_size : Z;
  eval_loop : Z
}.

(** [TournamentSelection.__init__] *)
Definition __init__ (tournament_size : Z) (elitism : pyobj)
    (population_size eval_loop : Z) : res TournamentSelection :=
  if negb (0 <? tournament_size) then
    Raise (AssertionError "Tournament size must be greater than zero.")
  else if negb (isinstance_bool elitism) then
    Raise (AssertionError "Elitism must be boolean value True or False.")
  else if negb (0 <? population_size) then
    Raise (AssertionError "Population size must be greater than zero.")
  else if negb (0 <? eval_loop) then
    Raise (AssertionError "Evo step must be greater than zero.")
  else
    Ok {| tournament_size := tournament_size;
          elitism := elitism;
          population_size := population_size;
          eval_loop := eval_loop |}.

(** An individual: its index, its fitness history, and what else it
    owns (networks, optimizers, hyperparameters) as [W]. *)
Record individual (W : Type) : Type := {
  index : Z;
  fitness : list Qc;
  owned : W
}.
Arguments index {W} _.
Arguments fitness {W} _.
Arguments owned {W} _.

Section Select.

Context {W : Type} {np : Numpy}.

(** Modelled from the spec: [EvolvableAlgorithm.clone] lives in
    [agilerl/algorithms/core/base.py], which is not among the sources.
    The spec has it as a deep copy of all owned state, the index kept
    when none is given and replaced by the given one otherwise; [wrap]
    only decides whether the copy is wrapped for distributed execution. *)
Definition clone (ind : individual W) (new_index : option Z) (wrap : bool)
    : individual W :=
  {| index := default (index ind) new_index;
     fitness := fitness ind;
     owned := owned ind |}.

(** The winner among the drawn positions: the body of [_tournament]
    after the draw. *)
Definition winner_of (fitness_values : list nat) (selection : list nat) : res nat :=
  selection_values ← res_mapM (getitem fitness_values) selection ;
  k ← np_argmax selection_values ;
  getitem selection k.

(** [TournamentSelection._tournament]; [randint] raises [ValueError]
    when the range is empty. *)
Definition _tournament (self : TournamentSelection) (fitness_values : list nat)
    (g : rng) : res nat * rng :=
  if (length fitness_values =? 0)%nat then (Raise ValueError, g)
  else
    let '(selection, g') :=
      randint (length fitness_values) (Z.to_nat (tournament_size self)) g in
    (winner_of fitness_values selection, g').

(** [np.mean(indi.fitness[-self.eval_loop:])] *)
Definition score (self : TournamentSelection) (indi : individual W) : Qc :=
  np_mean (slice_from (- eval_loop self) (fitness indi)).

(** The rank array [_elitism] computes: [rank[i]] is the place of
    individual [i] when the scores are put in ascending order. *)
Definition rank_of (self : TournamentSelection) (population : list (individual W))
    : list nat :=
  argsort_int (argsort_float (map (score self) population)).

(** [TournamentSelection._elitism] *)
Definition _elitism (self : TournamentSelection) (population : list (individual W))
    : res (individual W * list nat * Z) :=
  let last_fitness := map (score self) population in
  let rank := argsort_int (argsort_float last_fitness) in
  max_id ← py_max (map index population) ;
  best ← match last (argsort_int rank) with
         | Some i => Ok i
         | None => Raise IndexError
         end ;
  model ← getitem population best ;
  let elite := clone model None true in
  Ok (elite, rank, max_id).

(** The [for idx in range(selection_size)] loop of [select], with the
    iterations still to run, the running [max_id] and the population
    built so far. *)
Fixpoint select_loop (self : TournamentSelection) (population : list (individual W))
    (rank : list nat) (todo : nat) (max_id : Z) (new_population : list (individual W))
    (g : rng) : res (list (individual W)) * rng :=
  match todo with
  | O => (Ok new_population, g)
  | S todo' =>
      let max_id := max_id + 1 in
      match _tournament self rank g with
      | (Raise e, g') => (Raise e, g')
      | (Ok w, g') =>
          match getitem population w with
          | Raise e => (Raise e, g')
          | Ok actor_parent =>
              let new_individual := clone actor_parent (Some max_id) false in
              select_loop self population rank todo' max_id
                (new_population ++ [new_individual]) g'
          end
      end
  end.

(** [TournamentSelection.select] *)
Definition select (self : TournamentSelection) (population : list (individual W))
    (g : rng) : res (individual W * list (individual W)) * rng :=
  match _elitism self population with
  | Raise e => (Raise e, g)
  | Ok (elite, rank, max_id) =>
      let '(new_population, selection_size) :=
        if truthy (elitism self)
        then ([clone elite None false], population_size self - 1)
        else ([], population_size self) in
      match select_loop self population rank (Z.to_nat selection_size)
              max_id new_population g with
      | (Raise e, g') => (Raise e, g')
      | (Ok new_population, g') => (Ok (elite, new_population), g')
      end
  end.

End Select.

End Tournament.

(** ** [agilerl/networks/base.py]: mutation methods *)

(** A Python [dict] with its insertion order: assigning to a key that is
    present replaces the value in place, a new key goes to the end. *)
Fixpoint dict_set {K V} `{EqDecision K} (k : K) (v : V) (d : list (K * V)) : list (K * V) :=
  match d with
  | [] => [(k, v)]
  | (k', v') :: d' => if decide (k' = k) then (k, v) :: d' else (k', v') :: dict_set k v d'
  end.

Definition dict_values {K V} (d : list (K * V)) : list V := d.*2.

Module Evolvable.

Inductive MutationType : Type := LAYER | NODE.

Global Instance MutationType_eq_dec : EqDecision MutationType.
Proof. solve_decision. Defined.

(** A function wrapped by [register_mutation_fn]: the wrapper keeps the
    function's [__name__] and carries [_mutation_type]. *)
Record MutationMethod : Type := {
  __name__ : string;
  _mutation_type : MutationType
}.

(** An entry of [vars(self.__class__)]: a registered mutation method, or
    anything else the class defines. *)
Inductive class_attr : Type :=
  | Method (m : MutationMethod)
  | Plain.

Record EvolvableModule : Type := {
  name : string;
  _layer_mutation_methods : list (string * MutationMethod);
  _node_mutation_methods : list (string * MutationMethod);
  _mutation_methods : list MutationMethod
}.

(** The loop of [__init__] over the class attributes. *)
Fixpoint populate (attrs : list (string * class_attr))
    (layer node : list (string * MutationMethod))
    : list (string * MutationMethod) * list (string * MutationMethod) :=
  match attrs with
  | [] => (layer, node)
  | (name, Method method) :: attrs' =>
      match _mutation_type method with
      | LAYER => populate attrs' (dict_set name method layer) node
      | NODE => populate attrs' layer (dict_set name method node)
      end
  | (_, Plain) :: attrs' => populate attrs' layer node
  end.

(** [EvolvableModule.__init__], given the attributes of the class. *)
Definition __init__ (class_vars : list (string * class_attr)) (name : string)
    : EvolvableModule :=
  let '(layer, node) := populate class_vars [] [] in
  {| name := name;
     _layer_mutation_methods := layer;
     _node_mutation_methods := node;
     _mutation_methods := dict_values layer ++ dict_values node |}.

(** [EvolvableModule.get_mutation_methods] *)
Definition get_mutation_methods (self : EvolvableModule)
    : list (string * MutationMethod) :=
  foldl (λ d method, dict_set (__name__ method) method d) [] (_mutation_methods self).

(** [x / n] for a float [x] and an int [n]. *)
Definition py_div (x : Qc) (n : nat) : res Qc :=
  if (n =? 0)%nat then Raise ZeroDivisionError
  else Ok (x / Qc_of_Z (Z.of_nat n))%Qc.

(** [EvolvableModule.get_mutation_probs] *)
Definition get_mutation_probs (self : EvolvableModule) (new_layer_prob : Qc)
    : res (list Qc) :=
  let num_layer_fns := length (_layer_mutation_methods self) in
  let num_node_fns := length (_node_mutation_methods self) in
  res_mapM (λ fn,
      match _mutation_type fn with
      | LAYER => py_div new_layer_prob num_layer_fns
      | NODE => py_div (1 - new_layer_prob)%Qc num_node_fns
      end)
    (dict_values (get_mutation_methods self)).

(** The mutation methods a class registers, read off its attributes. *)
Definition registered (class_vars : list (string * class_attr)) : list MutationMethod :=
  omap (λ a, match a.2 with Method m => Some m | Plain => None end) class_vars.

Definition of_type (t : MutationType) (ms : list MutationMethod) : list MutationMethod :=
  filter (λ m, _mutation_type m = t) ms.

(** The registered methods of one type with the names they sit under. *)
Definition entries (t : MutationType) (attrs : list (string * class_attr))
    : list (string * MutationMethod) :=
  omap (λ a, match a.2 with
             | Method m => if decide (_mutation_type m = t) then Some (a.1, m) else None
             | Plain => None
             end) attrs.

(** The prescribed share of a method: [new_layer_prob] split evenly
    among [num_layer] layer methods, the rest among [num_node] node
    methods. *)
Definition share (new_layer_prob : Qc) (num_layer num_node : nat)
    (fn : MutationMethod) : Qc :=
  match _mutation_type fn with
  | LAYER => (new_layer_prob / Qc_of_Z (Z.of_nat num_layer))%Qc
  | NODE => ((1 - new_layer_prob) / Qc_of_Z (Z.of_nat num_node))%Qc
  end.

(** Every registered method sits under its own name, as a decorated
    [def] in the class body leaves it. *)
Definition own_names (class_vars : list (string * class_attr)) : Prop :=
  Forall (λ a, match a.2 with
               | Method m => __name__ m = a.1
               | Plain => True
               end) class_vars.

Global Instance own_names_dec class_vars : Decision (own_names class_vars).
Proof.
  apply Forall_dec. intros [k [m|]]; simpl; apply _.
Defined.

(** A list of numbers is a probability distribution. *)
Definition is_distribution (probs : list Qc) : Prop :=
  Forall (λ p, 0 ≤ p)%Qc probs ∧ Qc_sum probs = 1%Qc.

End Evolvable.

(** ** Activation mutation *)

Module Mutations.

Record network : Type := {
  activation : string;
  hidden_size : list nat
}.

Record agent : Type := {
  actor : network;
  mut : string
}.

(** Modelled from the spec: the activation branch of the mutation engine
    ([agilerl/hpo/mutation.py] is not among the sources). The new
    activation is picked from [activation_selection], excluding the
    network's current activation unless only one candidate exists. *)
Definition candidates (activation_selection : list string) (current : string)
    : list string :=
  if (length activation_selection =? 1)%nat then activation_selection
  else filter (λ a, a ≠ current) activation_selection.

(** Modelled from the spec: the uniform pick, from a draw of the
    engine's generator; an activation swap changes nothing else. *)
Definition permutate_activation (activation_selection : list string) (draw : nat)
    (net : network) : res network :=
  let cands := candidates activation_selection (activation net) in
  match cands !! (draw `mod` length cands)%nat with
  | Some new_activation =>
      Ok {| activation := new_activation; hidden_size := hidden_size net |}
  | None => Raise ValueError
  end.

(** Modelled from the spec: the activation mutation of an individual,
    tagged ["act"]. *)
Definition activation_mutation (activation_selection : list string) (draw : nat)
    (individual : agent) : res agent :=
  net ← permutate_activation activation_selection draw (actor individual) ;
  Ok {| actor := net; mut := "act" |}.

End Mutations.

(** ** Tensors *)

(** A tensor is its size and its elements in row-major order. The
    elements are only moved around, so their type is left open. *)
Record tensor (V : Type) : Type := {
  size : list nat;
  data : list V
}.
Arguments size {V} _.
Arguments data {V} _.
Arguments Build_tensor {V} _ _.

Definition numel (s : list nat) : nat := foldr Nat.mul 1%nat s.

Definition wf_tensor {V} (t : tensor V) : Prop :=
  length (data t) = numel (size t).

(** Row-major position of a multi-index. *)
Fixpoint offset (s idx : list nat) : nat :=
  match s, idx with
  | _ :: s', i :: idx' => (i * numel s' + offset s' idx')%nat
  | _, _ => 0%nat
  end.

(** [idx] has one component per dimension, each below the size. *)
Fixpoint in_range (s idx : list nat) : bool :=
  match s, idx with
  | [], [] => true
  | n :: s', i :: idx' => (i <? n)%nat && in_range s' idx'
  | _, _ => false
  end.

(** All multi-indices of a size, in row-major order. *)
Fixpoint indices (s : list nat) : list (list nat) :=
  match s with
  | [] => [[]]
  | n :: s' => i ← seq 0 n ; (i ::.) <$> indices s'
  end.

Section Tensor.

Context {V : Type}.

(** [t[idx]] for a full multi-index. *)
Definition tget (t : tensor V) (idx : list nat) : res V :=
  if in_range (size t) idx then getitem (data t) (offset (size t) idx)
  else Raise IndexError.

(** The tensor of size [s] whose element at [idx] is [f idx]. *)
Definition tabulate (s : list nat) (f : list nat → res V) : res (tensor V) :=
  d ← res_mapM f (indices s) ;
  Ok {| size := s; data := d |}.

(** Size of the view [t[0:m_0, ..., 0:m_k]] of a tensor of size [s]: a
    slice end past the size is clamped, dimensions without a slice are
    taken whole, more slices than dimensions raise [IndexError]. *)
Fixpoint slice_size (ms s : list nat) : res (list nat) :=
  match ms, s with
  | [], _ => Ok s
  | m :: ms', n :: s' => rest ← slice_size ms' s' ; Ok (m `min` n :: rest)%nat
  | _ :: _, [] => Raise IndexError
  end.

(** [t[0:m_0, ..., 0:m_k]] *)
Definition getitem_slices (ms : list nat) (t : tensor V) : res (tensor V) :=
  s ← slice_size ms (size t) ;
  tabulate s (tget t).

(** A size without its leading dimensions of length one. *)
Fixpoint strip_ones (s : list nat) : list nat :=
  match s with
  | 1%nat :: s' => strip_ones s'
  | _ => s
  end.

(** Broadcasting: size [src] expands to size [dst] when, aligned at the
    last dimension, every dimension of [src] equals that of [dst] or is
    one; both sizes are given last dimension first. *)
Fixpoint expandable_rev (src dst : list nat) : bool :=
  match src, dst with
  | [], _ => true
  | x :: src', y :: dst' => ((x =? y)%nat || (x =? 1)%nat) && expandable_rev src' dst'
  | _ :: _, [] => false
  end.

Definition expandable (src dst : list nat) : bool :=
  expandable_rev (rev src) (rev dst).

(** The element of the assigned value that lands at [idx] of the
    destination view: the last components of [idx], with zero where the
    value has length one, behind zeros for the stripped dimensions. *)
Definition bcast_index (vsize : list nat) (idx : list nat) : list nat :=
  let s' := strip_ones vsize in
  replicate (length vsize - length s') 0%nat ++
  zip_with (λ n i, if (n =? 1)%nat then 0%nat else i) s'
           (drop (length idx - length s') idx).

(** [dst[0:m_0, ..., 0:m_k] = value] as torch does it: the value, its
    leading dimensions of length one stripped, is expanded to the size
    of the view and copied; [RuntimeError] when it does not expand. *)
Definition setitem_slices (ms : list nat) (dst value : tensor V) : res (tensor V) :=
  view ← slice_size ms (size dst) ;
  if expandable (strip_ones (size value)) view then
    tabulate (size dst) (λ idx,
      if in_range view idx then tget value (bcast_index (size value) idx)
      else tget dst idx)
  else Raise RuntimeError.

End Tensor.

(** [sub in s] for Python strings. *)
Fixpoint contains (sub s : string) : bool :=
  String.prefix sub s ||
  match s with
  | EmptyString => false
  | String _ s' => contains sub s'
  end.

(** ** [agilerl/networks/base.py]: weight transplantation *)

Module Transplant.

Section Transplant.

Context {V : Type}.

(** A network is its [named_parameters()], in order. *)
Definition net : Type := list (string * tensor V).

(** [dict(net.named_parameters())] *)
Definition named_dict (n : net) : gmap string (tensor V) :=
  foldl (λ d kv, <[kv.1 := kv.2]> d) ∅ n.

(** The body of the loop of [preserve_parameters] for one parameter of
    the new network; the result is the parameter's new [data]. *)
Definition preserve_param (old_net_dict : gmap string (tensor V))
    (key : string) (param : tensor V) : res (tensor V) :=
  match old_net_dict !! key with
  | Some old_param =>
      let old_size := size old_param in
      let new_size := size param in
      if decide (old_size = new_size) then Ok old_param
      else if negb (contains "norm" key) then
        let slice_index := zip_with Nat.min old_size new_size in
        value ← getitem_slices slice_index old_param ;
        setitem_slices slice_index param value
      else Ok param
  | None => Ok param
  end.

(** [EvolvableModule.preserve_parameters] *)
Definition preserve_parameters (old_net new_net : net) : res net :=
  let old_net_dict := named_dict old_net in
  res_mapM (λ kp, p ← preserve_param old_net_dict kp.1 kp.2 ; Ok (kp.1, p)) new_net.

(** The body of the loop of [shrink_preserve_parameters]. *)
Definition shrink_preserve_param (old_net_dict : gmap string (tensor V))
    (key : string) (param : tensor V) : res (tensor V) :=
  match old_net_dict !! key with
  | Some old_param =>
      if decide (size old_param = size param) then Ok old_param
      else if negb (contains "norm" key) then
        let old_size := size old_param in
        let new_size := size param in
        o0 ← getitem old_size 0 ;
        n0 ← getitem new_size 0 ;
        let min_0 := (o0 `min` n0)%nat in
        if (length (size param) =? 1)%nat then
          value ← getitem_slices [min_0] old_param ;
          setitem_slices [min_0] param value
        else
          o1 ← getitem old_size 1 ;
          n1 ← getitem new_size 1 ;
          let min_1 := (o1 `min` n1)%nat in
          value ← getitem_slices [min_0; min_1] old_param ;
          setitem_slices [min_0; min_1] param value
      else Ok param
  | None => Ok param
  end.

(** [EvolvableModule.shrink_preserve_parameters] *)
Definition shrink_preserve_parameters (old_net new_net : net) : res net :=
  let old_net_dict := named_dict old_net in
  res_mapM (λ kp, p ← shrink_preserve_param old_net_dict kp.1 kp.2 ; Ok (kp.1, p)) new_net.

(** The overlap of two sizes: the indices below both, dimension by
    dimension. *)
Definition in_overlap (old_size new_size idx : list nat) : bool :=
  in_range (zip_with Nat.min old_size new_size) idx.

(** The parameter [preserve_parameters] is meant to leave under [key]:
    the old one when the sizes agree, the new one untouched for a
    normalisation layer, and otherwise the new one with the old values
    on the overlap. *)
Definition transplanted (old : option (tensor V)) (key : string)
    (param result : tensor V) : Prop :=
  match old with
  | None => result = param
  | Some old_param =>
      if decide (size old_param = size param) then result = old_param
      else if contains "norm" key then result = param
      else size result = size param ∧
           ∀ idx, in_range (size param) idx = true →
             tget result idx =
               if in_overlap (size old_param) (size param) idx
               then tget old_param idx else tget param idx
  end.

(** A shared parameter whose shape changed, outside normalisation
    layers, has as many dimensions in the new network as in the old. *)
Definition same_rank (d : gmap string (tensor V)) (key : string)
    (param : tensor V) : Prop :=
  match d !! key with
  | Some old_param =>
      size old_param ≠ size param → contains "norm" key = false →
      length (size old_param) = length (size param)
  | None => True
  end.

(** A shared parameter whose shape changed, outside normalisation
    layers, changed in the first two dimensions only. *)
Definition same_tail (d : gmap string (tensor V)) (key : string)
    (param : tensor V) : Prop :=
  match d !! key with
  | Some old_param =>
      size old_param ≠ size param → contains "norm" key = false →
      drop 2 (size old_param) = drop 2 (size param)
  | None => True
  end.

Global Instance wf_tensor_dec (t : tensor V) : Decision (wf_tensor t).
Proof. unfold wf_tensor. apply _. Defined.

Global Instance same_rank_dec d key param : Decision (same_rank d key param).
Proof. unfold same_rank. destruct (d !! key); apply _. Defined.

Global Instance same_tail_dec d key param : Decision (same_tail d key param).
Proof. unfold same_tail. destruct (d !! key); apply _. Defined.

End Transplant.

End Transplant.

(** ** Sample inputs *)

Module Samples.
Import Tournament.

Definition selection0 : TournamentSelection :=
  {| tournament_size := 2; elitism := PyBool true;
     population_size := 4; eval_loop := 2 |}.

Definition population0 : list (individual unit) :=
  [ {| index := 5; fitness := [Qc_of_Z 1; Qc_of_Z 2; Qc_of_Z 0]; owned := () |};
    {| index := 7; fitness := [Qc_of_Z 3; Qc_of_Z 9]; owned := () |};
    {| index := 2; fitness := [Qc_of_Z 3; Qc_of_Z 4]; owned := () |} ].

(** A class that registers node mutations only. *)
Definition node_only_vars : list (string * Evolvable.class_attr) :=
  [ ("forward", Evolvable.Plain);
    ("add_node", Evolvable.Method
       {| Evolvable.__name__ := "add_node"; Evolvable._mutation_type := Evolvable.NODE |}) ].

(** A class with one layer mutation and two node mutations. *)
Definition mlp_vars : list (string * Evolvable.class_attr) :=
  [ ("add_layer", Evolvable.Method
       {| Evolvable.__name__ := "add_layer"; Evolvable._mutation_type := Evolvable.LAYER |});
    ("forward", Evolvable.Plain);
    ("add_node", Evolvable.Method
       {| Evolvable.__name__ := "add_node"; Evolvable._mutation_type := Evolvable.NODE |});
    ("remove_node", Evolvable.Method
       {| Evolvable.__name__ := "remove_node"; Evolvable._mutation_type := Evolvable.NODE |}) ].

Definition relu_agent : Mutations.agent :=
  {| Mutations.actor := {| Mutations.activation := "ReLU"; Mutations.hidden_size := [8]%nat |};
     Mutations.mut := "None" |}.

(** A linear layer that grows from two to three outputs and shrinks
    from three to two inputs, next to a normalisation layer and a new
    parameter. *)
Definition old_net0 : @Transplant.net Z :=
  [ ("fc.weight", {| size := [2; 3]%nat; data := [1; 2; 3; 4; 5; 6] |});
    ("fc.bias", {| size := [2]%nat; data := [7; 8] |});
    ("norm.weight", {| size := [2]%nat; data := [9; 9] |}) ].

Definition new_net0 : @Transplant.net Z :=
  [ ("fc.weight", {| size := [3; 2]%nat; data := [10; 20; 30; 40; 50; 60] |});
    ("fc.bias", {| size := [3]%nat; data := [70; 80; 90] |});
    ("norm.weight", {| size := [3]%nat; data := [0; 0; 0] |});
    ("head.bias", {| size := []; data := [5] |}) ].

(** A convolution whose kernel shrinks from three to two. *)
Definition old_conv : @Transplant.net Z :=
  [ ("conv.weight", {| size := [1; 1; 3]%nat; data := [1; 2; 3] |}) ].

Definition new_conv : @Transplant.net Z :=
  [ ("conv.weight", {| size := [1; 1; 2]%nat; data := [10; 20] |}) ].

End Samples.

(** ** [agilerl/components/multi_agent_replay_buffer.py] *)

Module ReplayBuffer.

(** The exceptions of the buffer: the ones above, and two more. *)
Inductive error : Type :=
  | Builtin (e : exn)
  | TypeError
  | StopIteration.

Inductive result (A : Type) : Type :=
  | Return (a : A)
  | Throw (e : error).
Arguments Return {A} a.
Arguments Throw {A} e.

Global Instance result_bind : MBind result := λ A B k m,
  match m with
  | Return a => k a
  | Throw e => Throw e
  end.

(** A list comprehension whose body may raise. *)
Fixpoint result_mapM {A B} (f : A → result B) (l : list A) : result (list B) :=
  match l with
  | [] => Return []
  | x :: l' => y ← f x ; ys ← result_mapM f l' ; Return (y :: ys)
  end.

(** [d.append(x)] on a [deque(maxlen=maxlen)], oldest entry first: a
    full deque drops its oldest entry. *)
Definition deque_append {A} (maxlen : nat) (d : list A) (x : A) : list A :=
  if (length d <? maxlen)%nat then d ++ [x] else tail (d ++ [x]).

(** [zip] applied to the lists [ls]: the tuples of the entries at equal
    positions, as many as the shortest list has; none for no list. *)
Definition zip_star {A} (ls : list (list A)) : list (list A) :=
  match ls with
  | [] => []
  | l :: ls' =>
      (λ i, omap (λ l', l' !! i) ls) <$>
        seq 0 (foldr (λ l' n, length l' `min` n)%nat (length l) ls')
  end.

Section Buffer.

(** The value of one field of an experience. *)
Context {F : Type}.

(** Whether [namedtuple] accepts the field names: distinct
    identifiers, no keyword, no leading underscore. *)
Variable namedtuple_accepts : list string → bool.

(** The buffer; an experience is the tuple of its field values, in the
    order of [field_names], and [memory] has the oldest one first. *)
Record MultiAgentReplayBuffer : Type := {
  memory_size : Z;
  memory : list (list F);
  field_names : list string;
  counter : Z;
  device : option string;
  agent_ids : list string
}.

(** [MultiAgentReplayBuffer.__init__] *)
Definition __init__ (memory_size : Z) (field_names agent_ids : list string)
    (device : option string) : result MultiAgentReplayBuffer :=
  if negb (0 <? memory_size) then
    Throw (Builtin (AssertionError "Memory size must be greater than zero."))
  else if negb (0 <? length field_names)%nat then
    Throw (Builtin (AssertionError "Field names must contain at least one field name."))
  else if negb (0 <? length agent_ids)%nat then
    Throw (Builtin (AssertionError "Agent ids must contain at least one agent id."))
  else if negb (namedtuple_accepts field_names) then
    Throw (Builtin ValueError)
  else
    Return {| memory_size := memory_size;
              memory := [];
              field_names := field_names;
              counter := 0;
              device := device;
              agent_ids := agent_ids |}.

(** [MultiAgentReplayBuffer.__len__] *)
Definition __len__ (self : MultiAgentReplayBuffer) : nat := length (memory self).

(** A method that may raise, with the buffer it leaves behind. *)
Definition method : Type := MultiAgentReplayBuffer → result () * MultiAgentReplayBuffer.

(** [MultiAgentReplayBuffer._add]: the named tuple takes exactly one
    argument per field. *)
Definition _add (args : list F) : method := λ self,
  if decide (length args = length (field_names self)) then
    (Return (),
     {| memory_size := memory_size self;
        memory := deque_append (Z.to_nat (memory_size self)) (memory self) args;
        field_names := field_names self;
        counter := counter self;
        device := device self;
        agent_ids := agent_ids self |})
  else (Throw TypeError, self).

(** [self.counter += 1] *)
Definition count_up : method := λ self,
  (Return (),
   {| memory_size := memory_size self;
      memory := memory self;
      field_names := field_names self;
      counter := counter self + 1;
      device := device self;
      agent_ids := agent_ids self |}).

(** One statement after another. *)
Definition and_then (m1 m2 : method) : method := λ self,
  match m1 self with
  | (Return _, self') => m2 self'
  | (Throw e, self') => (Throw e, self')
  end.

(** [MultiAgentReplayBuffer.save_to_memory_single_env] *)
Definition save_to_memory_single_env (args : list F) : method :=
  and_then (_add args) count_up.

(** A [for] loop over [l] with body [body]. *)
Fixpoint for_each {A} (body : A → method) (l : list A) : method :=
  match l with
  | [] => λ self, (Return (), self)
  | x :: l' => and_then (body x) (for_each body l')
  end.

End Buffer.

Arguments MultiAgentReplayBuffer : clear implicits.

Section Vectorised.

(** An entry of an array of a batch, with its conversion to an
    [np.ndarray] when it is none. A field of an experience is a
    dictionary from agent ids to such entries. *)
Context {E : Type}.
Variable is_ndarray : E → bool.
Variable np_array : E → E.

(** [np.array(x) if not isinstance(x, np.ndarray) else x] *)
Definition to_ndarray (x : E) : E := if is_ndarray x then x else np_array x.

(** The dictionary comprehension of [_reorganize_dicts] for entry [i]
    of the batch. *)
Definition entry_dict (i : nat) (arg : list (string * list E))
    : result (list (string * E)) :=
  result_mapM (λ kv : string * list E,
      match kv.2 !! i with
      | Some x => Return (kv.1, to_ndarray x)
      | None => Throw (Builtin IndexError)
      end) arg.

(** The dictionary of entry [i], empty where the comprehension raises. *)
Definition the_entry (i : nat) (arg : list (string * list E))
    : list (string * E) :=
  match entry_dict i arg with
  | Return d => d
  | Throw _ => []
  end.

(** The loop [for j, arg in enumerate(args)] of [_reorganize_dicts]. *)
Fixpoint reorganize_entry (i : nat) (args : list (list (string * list E)))
    (j : nat) (results : list (list (list (string * E))))
    : result (list (list (list (string * E)))) :=
  match args with
  | [] => Return results
  | arg :: args' =>
      new_dict ← entry_dict i arg ;
      reorganize_entry i args' (S j) (alter (λ r, r ++ [new_dict]) j results)
  end.

(** The loop [for i in range(num_entries)] of [_reorganize_dicts]. *)
Fixpoint reorganize_loop (entries : list nat) (args : list (list (string * list E)))
    (results : list (list (list (string * E))))
    : result (list (list (list (string * E)))) :=
  match entries with
  | [] => Return results
  | i :: entries' =>
      results' ← reorganize_entry i args 0 results ;
      reorganize_loop entries' args results'
  end.

(** [MultiAgentReplayBuffer._reorganize_dicts]: [args[0]] raises
    [IndexError] without arguments, [next] raises [StopIteration] on an
    empty dictionary. *)
Definition _reorganize_dicts (args : list (list (string * list E)))
    : result (list (list (list (string * E)))) :=
  let results := replicate (length args) [] in
  first ← match args with
          | [] => Throw (Builtin IndexError)
          | arg :: _ => Return arg
          end ;
  value ← match dict_values first with
          | [] => Throw StopIteration
          | v :: _ => Return v
          end ;
  let num_entries := length value in
  reorganize_loop (seq 0 num_entries) args results.

(** [MultiAgentReplayBuffer.save_to_memory_vect_envs] *)
Definition save_to_memory_vect_envs (args : list (list (string * list E)))
    : @method (list (string * E)) := λ self,
  match _reorganize_dicts args with
  | Throw e => (Throw e, self)
  | Return args =>
      for_each (λ transition, and_then (_add transition) count_up)
               (zip_star args) self
  end.

End Vectorised.

End ReplayBuffer.

(** The architecture of a network: the names and sizes of its
    parameters, in order. *)
Definition architecture {V} (n : list (string * tensor V)) : list (string * list nat) :=
  (λ kp, (kp.1, size kp.2)) <$> n.

(** Entry [i] of a batched argument, agent by agent: what
    [_reorganize_dicts] is to put at place [i] for this argument. *)
Definition is_entry_of {E} (conv : E → E) (i : nat)
    (arg : list (string * list E)) (d : list (string * E)) : Prop :=
  Forall2 (λ kv kx, kx.1 = kv.1 ∧ ∃ x, kv.2 !! i = Some x ∧ kx.2 = conv x) arg d.

(** ** More sample inputs *)

Module MoreSamples.

(** Two environments, two agents; states and rewards come in batches. *)
Definition batch_states : list (string * list Z) :=
  [ ("agent_0", [11; 12]); ("agent_1", [21; 22]) ].

Definition batch_rewards : list (string * list Z) :=
  [ ("agent_0", [1; 0]); ("agent_1", [0; 1]) ].

(** A buffer of capacity two that holds one experience. *)
Definition buffer0 : ReplayBuffer.MultiAgentReplayBuffer Z :=
  {| ReplayBuffer.memory_size := 2; ReplayBuffer.memory := [[1; 2]];
     ReplayBuffer.field_names := ["state"; "reward"]; ReplayBuffer.counter := 1;
     ReplayBuffer.device := None; ReplayBuffer.agent_ids := ["agent_0"] |}.

(** An empty buffer of capacity three for states and rewards per agent. *)
Definition vect_buffer0 : ReplayBuffer.MultiAgentReplayBuffer (list (string * Z)) :=
  {| ReplayBuffer.memory_size := 3; ReplayBuffer.memory := [];
     ReplayBuffer.field_names := ["state"; "reward"]; ReplayBuffer.counter := 0;
     ReplayBuffer.device := None; ReplayBuffer.agent_ids := ["agent_0"; "agent_1"] |}.

(** A weight that has two dimensions in the old network and one in the
    new network. *)
Definition old_matrix : @Transplant.net Z :=
  [ ("w", {| size := [2; 3]%nat; data := [1; 2; 3; 4; 5; 6] |}) ].

Definition new_vector : @Transplant.net Z :=
  [ ("w", {| size := [2]%nat; data := [10; 20] |}) ].

(** A weight that has one dimension in the old network and two in the
    new network. *)
Definition old_vector : @Transplant.net Z :=
  [ ("w", {| size := [3]%nat; data := [1; 2; 3] |}) ].

Definition new_matrix : @Transplant.net Z :=
  [ ("w", {| size := [4; 3]%nat;
             data := [10; 20; 30; 40; 50; 60; 70; 80; 90; 100; 110; 120] |}) ].

(** A class that registers one layer method under two names. *)
Definition aliased_vars : list (string * Evolvable.class_attr) :=
  [ ("add_layer", Evolvable.Method
       {| Evolvable.__name__ := "add_layer"; Evolvable._mutation_type := Evolvable.LAYER |});
    ("grow", Evolvable.Method
       {| Evolvable.__name__ := "add_layer"; Evolvable._mutation_type := Evolvable.LAYER |});
    ("add_node", Evolvable.Method
       {| Evolvable.__name__ := "add_node"; Evolvable._mutation_type := Evolvable.NODE |}) ].

(** The sample new network with the weights of the sample old network
    transplanted. *)
Definition grown0 : @Transplant.net Z :=
  [ ("fc.weight", {| size := [3; 2]%nat; data := [1; 2; 4; 5; 50; 60] |});
    ("fc.bias", {| size := [3]%nat; data := [7; 8; 90] |});
    ("norm.weight", {| size := [3]%nat; data := [0; 0; 0] |});
    ("head.bias", {| size := []; data := [5] |}) ].

End MoreSamples.

(** * Properties *)

(** ** The exception monad *)

Lemma res_bind_Ok {A B} (m : res A) (k : A → res B) b :
  m ≫= k = Ok b ↔ ∃ a, m = Ok a ∧ k a = Ok b.
Proof.
  destruct m as [a|e]; simpl; split.
  - eauto.
  - by intros (a' & [= <-] & Hk).
  - done.
  - by intros (a' & Ha & _).
Qed.

Lemma getitem_Ok {A} (l : list A) i a : getitem l i = Ok a ↔ l !! i = Some a.
Proof. unfold getitem. destruct (l !! i); naive_solver. Qed.

Lemma getitem_lt {A} (l : list A) i :
  (i < length l)%nat → ∃ a, getitem l i = Ok a ∧ l !! i = Some a.
Proof.
  intros Hi. destruct (lookup_lt_is_Some_2 l i Hi) as [a Ha].
  exists a. by rewrite getitem_Ok.
Qed.

Lemma res_mapM_Ok {A B} (f : A → res B) (g : A → B) l :
  Forall (λ x, f x = Ok (g x)) l → res_mapM f l = Ok (g <$> l).
Proof.
  induction 1 as [|x l Hx _ IH]; [done|].
  simpl. by rewrite Hx, IH.
Qed.

Lemma res_mapM_ext {A B} (f g : A → res B) l :
  Forall (λ x, f x = g x) l → res_mapM f l = res_mapM g l.
Proof.
  induction 1 as [|x l Hx _ IH]; [done|].
  simpl. by rewrite Hx, IH.
Qed.

Lemma res_mapM_length {A B} (f : A → res B) l k :
  res_mapM f l = Ok k → length k = length l.
Proof.
  revert k. induction l as [|x l IH]; intros k; simpl.
  - by intros [= <-].
  - destruct (f x); [|done]. simpl.
    destruct (res_mapM f l) eqn:E; [|done]. simpl.
    intros [= <-]. simpl. f_equal. by apply IH.
Qed.

Lemma res_mapM_lookup {A B} (f : A → res B) l k i x :
  res_mapM f l = Ok k → l !! i = Some x → ∃ y, k !! i = Some y ∧ f x = Ok y.
Proof.
  revert k i. induction l as [|a l IH]; intros k i; simpl; [done|].
  destruct (f a) as [b|] eqn:Ea; [|done]. simpl.
  destruct (res_mapM f l) as [k'|] eqn:E; [|done]. simpl.
  intros [= <-]. destruct i as [|i]; simpl.
  - intros [= <-]. eauto.
  - intros Hi. by apply IH.
Qed.

(** ** [np.argsort] and [np.argmax] *)

Lemma take_idx_lookup {A} (vals : list A) p i :
  Forall (λ a, a < length vals)%nat p →
  take_idx vals p !! i = p !! i ≫= (vals !!.).
Proof.
  intros Hp. revert i. induction Hp as [|a p Ha _ IH]; intros i; [done|].
  unfold take_idx in *. simpl.
  destruct (lookup_lt_is_Some_2 vals a Ha) as [x Hx]. rewrite Hx. simpl.
  destruct i as [|i]; simpl; [done|]. apply IH.
Qed.

Lemma take_idx_seq {A} (vals : list A) j :
  take_idx (vals) (seq j (length vals - j)) = drop j vals.
Proof.
  remember (length vals - j)%nat as n eqn:Hn. revert j Hn.
  induction n as [|n IH]; intros j Hn; simpl.
  - rewrite drop_ge; [done|lia].
  - destruct (lookup_lt_is_Some_2 vals j) as [x Hx]; [lia|].
    unfold take_idx in *. simpl. rewrite Hx. simpl.
    rewrite IH by lia. symmetry. by apply drop_S.
Qed.

Lemma take_idx_perm {A} (vals : list A) p :
  p ≡ₚ seq 0 (length vals) → take_idx vals p ≡ₚ vals.
Proof.
  intros Hp. unfold take_idx. rewrite Hp.
  pose proof (take_idx_seq vals 0) as H.
  rewrite Nat.sub_0_r in H. unfold take_idx in H. by rewrite H.
Qed.

Lemma is_argsort_length {A} (R : relation A) vals p :
  is_argsort R vals p → length p = length vals.
Proof. intros [Hp _]. by rewrite Hp, length_seq. Qed.

Lemma is_argsort_lt {A} (R : relation A) vals p :
  is_argsort R vals p → Forall (λ a, a < length vals)%nat p.
Proof.
  intros [Hp _]. rewrite Hp. apply Forall_seq. intros; lia.
Qed.

Lemma StronglySorted_seq j n : StronglySorted le (seq j n).
Proof.
  revert j. induction n as [|n IH]; intros j; simpl; constructor; [done|].
  apply Forall_seq. intros; lia.
Qed.

(** The argsort of a permutation of [0 .. n-1] is its inverse. *)
Lemma argsort_inverse (p q : list nat) :
  p ≡ₚ seq 0 (length p) → is_argsort le p q →
  ∀ i, (i < length p)%nat → ∃ a, q !! i = Some a ∧ p !! a = Some i.
Proof.
  intros Hp Hq i Hi.
  assert (take_idx p q = seq 0 (length p)) as Heq.
  { apply (StronglySorted_unique le); [apply Hq|apply StronglySorted_seq|].
    rewrite take_idx_perm; [done|apply Hq]. }
  pose proof (take_idx_lookup p q i (is_argsort_lt _ _ _ Hq)) as Hl.
  rewrite Heq, lookup_seq_lt in Hl by done. simpl in Hl.
  destruct (q !! i) as [a|]; [|done]. eauto.
Qed.

Lemma StronglySorted_lookup_le {A} (R : relation A) `{!Reflexive R} l i j x y :
  StronglySorted R l → (i ≤ j)%nat → l !! i = Some x → l !! j = Some y → R x y.
Proof.
  intros Hl. revert i j. induction Hl as [|a l _ IH Ha]; intros i j Hij; [done|].
  destruct i as [|i], j as [|j]; simpl; try lia.
  - by intros [= <-] [= <-].
  - intros [= <-] Hy. rewrite Forall_forall in Ha.
    apply Ha. by eapply list_elem_of_lookup_2.
  - apply IH. lia.
Qed.

Lemma argmax_from_spec l best bi i :
  let k := argmax_from best bi i l in
  (k = bi ∧ Forall (λ x, x ≤ best)%nat l) ∨
  (∃ j x, k = (i + j)%nat ∧ l !! j = Some x ∧ (best < x)%nat ∧
          Forall (λ y, y ≤ x)%nat l ∧ Forall (λ y, y < x)%nat (take j l)).
Proof.
  revert best bi i. induction l as [|a l IH]; intros best bi i; simpl.
  { left. by split. }
  destruct (Nat.ltb_spec best a) as [Hlt|Hge].
  - right. destruct (IH a i (S i)) as [[Hk Hall]|(j & x & Hk & Hj & Hx & Hall & Hpre)].
    + exists 0%nat, a. simpl. repeat split; [lia|done|constructor; [lia|done]|done].
    + exists (S j), x. simpl. repeat split; [lia|done|lia| |].
      * constructor; [lia|done].
      * constructor; [lia|done].
  - destruct (IH best bi (S i)) as [[Hk Hall]|(j & x & Hk & Hj & Hx & Hall & Hpre)].
    + left. split; [done|]. by constructor.
    + right. exists (S j), x. simpl. repeat split; [lia|done|done| |].
      * constructor; [lia|done].
      * constructor; [lia|done].
Qed.

(** [np.argmax] of a non-empty list: the first position of a maximum. *)
Lemma np_argmax_spec l :
  l ≠ [] →
  ∃ k m, np_argmax l = Ok k ∧ l !! k = Some m ∧
         Forall (λ y, y ≤ m)%nat l ∧ Forall (λ y, y < m)%nat (take k l).
Proof.
  destruct l as [|a l]; [done|]. intros _. simpl.
  destruct (argmax_from_spec l a 0 1) as [[Hk Hall]|(j & x & Hk & Hj & Hx & Hall & Hpre)].
  - exists 0%nat, a. rewrite Hk. simpl. repeat split; [|done]. by constructor.
  - exists (S j), x. rewrite Hk. simpl. repeat split; [done| |].
    + constructor; [lia|done].
    + constructor; [lia|done].
Qed.

(** ** The reference routines keep the promises *)

Module RefNumpyLaws.
Import RefNumpy.

Lemma take_idx_pairs {A} (vals : list A) (l : list (nat * A)) :
  Forall (λ x, vals !! x.1 = Some x.2) l → take_idx vals (l.*1) = l.*2.
Proof.
  unfold take_idx. induction 1 as [|x l Hx _ IH]; [done|].
  csimpl. rewrite Hx. csimpl. by f_equal.
Qed.

Lemma zip_seq_lookup {A} (vals : list A) j :
  Forall (λ x, (j ≤ x.1)%nat ∧ vals !! (x.1 - j)%nat = Some x.2)
         (zip (seq j (length vals)) vals).
Proof.
  revert j. induction vals as [|v vals IH]; intros j; simpl; [done|].
  constructor.
  - simpl. split; [lia|]. by rewrite Nat.sub_diag.
  - eapply Forall_impl; [apply (IH (S j))|].
    intros [i x] [Hle Hx]; simpl in *. split; [lia|].
    by replace (i - j)%nat with (S (i - S j)) by lia.
Qed.

Section argsort.
Context {A} (R : relation A) `{!RelDecision R, !PreOrder R, !Total R}.

Local Instance by_value_trans : Transitive (by_value R).
Proof. intros x y z. unfold by_value. apply transitivity. Qed.

Local Instance by_value_total : Total (by_value R).
Proof. intros x y. unfold by_value. apply total, _. Qed.

Lemma argsort_is_argsort vals : is_argsort R vals (argsort R vals).
Proof.
  unfold argsort. split.
  - rewrite merge_sort_Permutation. rewrite fst_zip; [done|].
    by rewrite length_seq.
  - rewrite take_idx_pairs.
    + apply (StronglySorted_fmap _ (by_value R)); [by intros x y|].
      apply (StronglySorted_merge_sort _).
    + rewrite merge_sort_Permutation.
      eapply Forall_impl; [apply (zip_seq_lookup vals 0)|].
      intros [i x] [_ Hx]; simpl in *. by rewrite Nat.sub_0_r in Hx.
Qed.
End argsort.

Lemma lcg_draws_spec high size s :
  (0 < high)%nat →
  length (lcg_draws high size s).1 = size ∧
  Forall (λ i, (i < high)%nat) (lcg_draws high size s).1.
Proof.
  intros Hh. revert s. induction size as [|size IH]; intros s; simpl; [done|].
  destruct (lcg_draws high size (lcg_next s)) as [l s''] eqn:E.
  specialize (IH (lcg_next s)). rewrite E in IH. destruct IH as [IH1 IH2].
  simpl in *. split; [by rewrite IH1|].
  constructor; [|done].
  pose proof (Z.mod_pos_bound (lcg_next s) (Z.of_nat high)). lia.
Qed.

Global Instance laws : NumpyLaws numpy.
Proof.
  split.
  - intros vals. apply (argsort_is_argsort Qcle).
  - intros vals. apply (argsort_is_argsort le).
  - apply lcg_draws_spec.
Qed.

End RefNumpyLaws.

(** ** Tournament selection *)

Module TournamentProps.
Import Tournament.

Lemma init_Ok_inv ts el ps ev self :
  __init__ ts el ps ev = Ok self →
  self = {| tournament_size := ts; elitism := el;
            population_size := ps; eval_loop := ev |} ∧
  0 < ts ∧ (∃ b, el = PyBool b) ∧ 0 < ps ∧ 0 < ev.
Proof.
  unfold __init__.
  destruct (Z.ltb_spec 0 ts); simpl; [|done].
  destruct el as [b| | |]; simpl; try done.
  destruct (Z.ltb_spec 0 ps); simpl; [|done].
  destruct (Z.ltb_spec 0 ev); simpl; [|done].
  intros [= <-]. eauto 10.
Qed.

Lemma py_max_spec (l : list Z) :
  l ≠ [] → ∃ m, py_max l = Ok m ∧ m ∈ l ∧ Forall (λ x, x ≤ m) l.
Proof.
  destruct l as [|x l]; [done|]. intros _. simpl.
  exists (foldl Z.max x l). split; [done|].
  assert (∀ a, (foldl Z.max a l = a ∨ foldl Z.max a l ∈ l) ∧
               a ≤ foldl Z.max a l ∧ Forall (λ y, y ≤ foldl Z.max a l) l) as H.
  { induction l as [|y l IH]; intros a; simpl.
    - split; [by left|]. split; [lia|done].
    - destruct (IH (a `max` y)) as ([Heq|Hin] & Hle & Hall).
      + split; [|split; [lia|constructor; [lia|done]]].
        rewrite Heq. destruct (Z.max_spec a y) as [[_ ->]|[_ ->]].
        * right. by left.
        * by left.
      + split; [|split; [lia|constructor; [lia|done]]].
        right. by right. }
  destruct (H x) as ([Heq|Hin] & Hle & Hall).
  - rewrite Heq at 1. split; [by left|]. by constructor.
  - split; [by right|]. by constructor.
Qed.

(** C7. The constructor raises an assertion failure exactly when
    [tournament_size ≤ 0], or [elitism] is not a boolean, or
    [population_size ≤ 0], or [eval_loop ≤ 0]; in every other case it
    returns the object holding the four arguments as they were given. *)
Theorem init_asserts_iff ts el ps ev :
  ((∃ msg, __init__ ts el ps ev = Raise (AssertionError msg)) ↔
   (ts ≤ 0 ∨ isinstance_bool el = false ∨ ps ≤ 0 ∨ ev ≤ 0)) ∧
  (__init__ ts el ps ev =
     Ok {| tournament_size := ts; elitism := el;
           population_size := ps; eval_loop := ev |} ↔
   ¬ (ts ≤ 0 ∨ isinstance_bool el = false ∨ ps ≤ 0 ∨ ev ≤ 0)).
Proof.
  unfold __init__.
  destruct (Z.ltb_spec 0 ts); simpl.
  2:{ split; split; [intros _; by left|eauto|done|intros []; by left]. }
  destruct (isinstance_bool el) eqn:Hel; simpl.
  2:{ split; split; [intros _; right; by left|eauto|done|intros []; right; by left]. }
  destruct (Z.ltb_spec 0 ps); simpl.
  2:{ split; split; [intros _; do 2 right; by left|eauto|done
                    |intros []; do 2 right; by left]. }
  destruct (Z.ltb_spec 0 ev); simpl.
  2:{ split; split; [intros _; by do 3 right|eauto|done|intros []; by do 3 right]. }
  split; split.
  - by intros [msg ?].
  - intros [?|[?|[?|?]]]; (lia || done).
  - intros _ [?|[?|[?|?]]]; (lia || done).
  - done.
Qed.

Section props.

Context {W : Type} {np : Numpy} {laws : NumpyLaws np}.
Implicit Types (self : TournamentSelection) (population : list (individual W)).

Lemma winner_of_spec (fitness_values selection : list nat) :
  selection ≠ [] →
  Forall (λ i, i < length fitness_values)%nat selection →
  ∃ w k r, winner_of fitness_values selection = Ok w ∧
    selection !! k = Some w ∧ fitness_values !! w = Some r ∧
    (∀ j i rj, selection !! j = Some i → fitness_values !! i = Some rj →
               (rj ≤ r)%nat) ∧
    (∀ j i rj, (j < k)%nat → selection !! j = Some i →
               fitness_values !! i = Some rj → (rj < r)%nat).
Proof.
  intros Hne Hsel. unfold winner_of.
  set (val := λ i, default 0%nat (fitness_values !! i)).
  assert (∀ i, i ∈ selection → fitness_values !! i = Some (val i)) as Hval.
  { intros i Hi. rewrite Forall_forall in Hsel.
    destruct (lookup_lt_is_Some_2 fitness_values i (Hsel i Hi)) as [x Hx].
    unfold val. by rewrite Hx. }
  rewrite (res_mapM_Ok _ val).
  2:{ apply Forall_forall. intros i Hi. apply getitem_Ok. by apply Hval. }
  simpl.
  destruct (np_argmax_spec (val <$> selection)) as (k & m & -> & Hk & Hall & Hpre).
  { by destruct selection. }
  simpl. rewrite list_lookup_fmap in Hk.
  destruct (selection !! k) as [w|] eqn:Hw; [|done]. simpl in Hk.
  injection Hk as <-.
  exists w, k, (val w). split; [by apply getitem_Ok|]. split; [done|].
  split; [apply Hval; by eapply list_elem_of_lookup_2|]. split.
  - intros j i rj Hj Hi. rewrite Forall_fmap, Forall_forall in Hall.
    assert (i ∈ selection) as Hin by by eapply list_elem_of_lookup_2.
    rewrite (Hval i Hin) in Hi. injection Hi as <-. by apply Hall.
  - intros j i rj Hjk Hj Hi. rewrite <-fmap_take, Forall_fmap, Forall_forall in Hpre.
    assert (i ∈ selection) as Hin by by eapply list_elem_of_lookup_2.
    rewrite (Hval i Hin) in Hi. injection Hi as <-. apply Hpre.
    eapply list_elem_of_lookup_2. rewrite lookup_take_lt; done.
Qed.

Lemma tournament_Ok self (rank : list nat) g :
  0 < tournament_size self → rank ≠ [] →
  ∃ w, _tournament self rank g =
         (Ok w, (randint (length rank) (Z.to_nat (tournament_size self)) g).2) ∧
       (w < length rank)%nat.
Proof.
  intros Hts Hne. unfold _tournament.
  destruct rank as [|r0 rank'] eqn:Hr; [done|]. rewrite <-Hr in *.
  assert (0 < length rank)%nat as Hlen by (rewrite Hr; simpl; lia).
  destruct (Nat.eqb_spec (length rank) 0) as [?|_]; [lia|].
  destruct (randint_spec (length rank) (Z.to_nat (tournament_size self)) g Hlen)
    as [Hl Hall].
  destruct (randint _ _ g) as [selection g'] eqn:E. simpl in *.
  destruct (winner_of_spec rank selection) as (w & k & r & -> & Hk & Hw & _); [|done|].
  { intros ->. simpl in Hl. lia. }
  exists w. split; [done|]. by eapply lookup_lt_Some.
Qed.

Lemma select_loop_spec self population rank todo max_id acc g :
  0 < tournament_size self → length rank = length population → population ≠ [] →
  ∃ offspring g',
    select_loop self population rank todo max_id acc g = (Ok (acc ++ offspring), g') ∧
    length offspring = todo ∧
    ∀ k ind, offspring !! k = Some ind →
      index ind = max_id + (Z.of_nat k + 1) ∧
      ∃ parent, parent ∈ population ∧
                ind = clone parent (Some (max_id + (Z.of_nat k + 1))) false.
Proof.
  intros Hts Hlen Hne. revert max_id acc g.
  induction todo as [|todo IH]; intros max_id acc g; simpl.
  { exists [], g. rewrite app_nil_r. by repeat split. }
  destruct (tournament_Ok self rank g Hts) as (w & -> & Hw).
  { intros ->. by destruct population. }
  destruct (getitem_lt population w) as (parent & -> & Hp); [lia|].
  destruct (IH (max_id + 1) (acc ++ [clone parent (Some (max_id + 1)) false])
              (randint (length rank) (Z.to_nat (tournament_size self)) g).2)
    as (offs & g' & -> & Hl & Hoffs).
  exists (clone parent (Some (max_id + 1)) false :: offs), g'.
  split; [by rewrite <-app_assoc|]. split; [simpl; by rewrite Hl|].
  intros [|k] ind; simpl.
  - intros [= <-]. split; [done|]. exists parent. split; [|done].
    by eapply list_elem_of_lookup_2.
  - intros Hk. destruct (Hoffs k ind Hk) as (Hidx & parent' & Hin & Hind).
    replace (max_id + (Z.of_nat (S k) + 1)) with (max_id + 1 + (Z.of_nat k + 1)) by lia.
    eauto.
Qed.

Lemma rank_of_length self population :
  length (rank_of self population) = length population.
Proof.
  unfold rank_of.
  rewrite (is_argsort_length _ _ _ (argsort_int_spec _)).
  rewrite (is_argsort_length _ _ _ (argsort_float_spec _)).
  by rewrite length_map.
Qed.

Lemma elitism_spec self population :
  population ≠ [] →
  ∃ e model max_id,
    _elitism self population =
      Ok (clone model None true, rank_of self population, max_id) ∧
    py_max (map index population) = Ok max_id ∧
    population !! e = Some model ∧
    rank_of self population !! e = Some (length population - 1)%nat ∧
    ∀ ind, ind ∈ population → (score self ind ≤ score self model)%Qc.
Proof.
  intros Hne. unfold _elitism. fold (rank_of self population).
  set (last_fitness := map (score self) population).
  assert (0 < length population)%nat as Hn by (destruct population; [done|simpl; lia]).
  set (n := length population) in *.
  destruct (py_max_spec (map index population)) as (max_id & -> & _).
  { by destruct population. }
  simpl.
  pose proof (argsort_float_spec last_fitness) as Hp1.
  set (p1 := argsort_float last_fitness) in *.
  assert (length p1 = n) as Hlp1.
  { rewrite (is_argsort_length _ _ _ Hp1). apply length_map. }
  assert (p1 ≡ₚ seq 0 (length p1)) as Hperm1.
  { rewrite Hlp1. destruct Hp1 as [Hp1 _]. etrans; [exact Hp1|].
    unfold last_fitness. by rewrite length_map. }
  pose proof (argsort_int_spec p1) as Hrank.
  fold (rank_of self population) in Hrank. set (rank := rank_of self population) in *.
  assert (length rank = n) as Hlrank by apply rank_of_length.
  assert (rank ≡ₚ seq 0 (length rank)) as Hperm2.
  { rewrite Hlrank, <-Hlp1. apply Hrank. }
  pose proof (argsort_int_spec rank) as Hp3.
  set (p3 := argsort_int rank) in *.
  assert (length p3 = n) as Hlp3.
  { by rewrite (is_argsort_length _ _ _ Hp3). }
  destruct (argsort_inverse rank p3 Hperm2 Hp3 (n - 1)) as (e & He & Hre); [lia|].
  assert (e < n)%nat as Hen.
  { rewrite <-Hlrank. by eapply lookup_lt_Some. }
  destruct (argsort_inverse p1 rank Hperm1 Hrank e) as (a & Ha & Hpa); [lia|].
  rewrite Hre in Ha. injection Ha as <-.
  rewrite last_lookup, Hlp3. replace (pred n) with (n - 1)%nat by lia.
  rewrite He. simpl.
  destruct (getitem_lt population e) as (model & -> & Hmodel); [done|].
  simpl. exists e, model, max_id. repeat split; try done.
  intros ind Hind.
  apply list_elem_of_lookup_1 in Hind as [a Ha].
  assert (a < n)%nat as Han by by eapply lookup_lt_Some.
  assert (a ∈ p1) as Hin.
  { rewrite Hperm1, Hlp1. apply elem_of_seq. lia. }
  apply list_elem_of_lookup_1 in Hin as [i Hi].
  assert (i < n)%nat as Hin by (rewrite <-Hlp1; by eapply lookup_lt_Some).
  pose proof (is_argsort_lt _ _ _ Hp1) as Hlt1.
  destruct Hp1 as [_ Hsorted].
  eapply (StronglySorted_lookup_le Qcle _ i (n - 1)); [done|lia| |].
  - rewrite take_idx_lookup by done.
    rewrite Hi. simpl. unfold last_fitness. by rewrite list_lookup_fmap, Ha.
  - rewrite take_idx_lookup by done.
    rewrite Hpa. simpl. unfold last_fitness. by rewrite list_lookup_fmap, Hmodel.
Qed.


(** C6. The tournament returns one of the drawn positions, the first
    among the draws whose rank value is the highest: every other draw
    has a rank value at most the winner's, every earlier draw a
    strictly smaller one. *)
Theorem tournament_winner_is_best_draw self (fitness_values : list nat) g
    (selection : list nat) g' :
  0 < tournament_size self → fitness_values ≠ [] →
  randint (length fitness_values) (Z.to_nat (tournament_size self)) g
    = (selection, g') →
  ∃ w k r, _tournament self fitness_values g = (Ok w, g') ∧
    Z.of_nat (length selection) = tournament_size self ∧
    selection !! k = Some w ∧ fitness_values !! w = Some r ∧
    (∀ j i rj, selection !! j = Some i → fitness_values !! i = Some rj →
               (rj ≤ r)%nat) ∧
    (∀ j i rj, (j < k)%nat → selection !! j = Some i →
               fitness_values !! i = Some rj → (rj < r)%nat).
Proof.
  intros Hts Hne Hdraw. unfold _tournament.
  assert (0 < length fitness_values)%nat as Hlen.
  { destruct fitness_values; [done|simpl; lia]. }
  destruct (Nat.eqb_spec (length fitness_values) 0) as [?|_]; [lia|].
  destruct (randint_spec (length fitness_values)
              (Z.to_nat (tournament_size self)) g Hlen) as [Hl Hall].
  rewrite Hdraw in *. simpl in *.
  destruct (winner_of_spec fitness_values selection)
    as (w & k & r & -> & Hk & Hw & Hmax & Hfirst); [|done|].
  { intros ->. simpl in Hl. lia. }
  exists w, k, r. repeat split; try done. lia.
Qed.

Lemma select_spec ts el ps ev self population g :
  __init__ ts el ps ev = Ok self → population ≠ [] →
  ∃ e best max_id offspring g',
    let elite := clone best None true in
    let seed := if truthy (elitism self) then [clone elite None false] else [] in
    select self population g = (Ok (elite, seed ++ offspring), g') ∧
    population !! e = Some best ∧
    rank_of self population !! e = Some (length population - 1)%nat ∧
    (∀ ind, ind ∈ population → (score self ind ≤ score self best)%Qc) ∧
    py_max (map index population) = Ok max_id ∧
    Z.of_nat (length seed + length offspring) = population_size self ∧
    ∀ k ind, offspring !! k = Some ind →
      index ind = max_id + (Z.of_nat k + 1) ∧
      ∃ parent, parent ∈ population ∧
                ind = clone parent (Some (max_id + (Z.of_nat k + 1))) false.
Proof.
  intros Hinit Hne.
  destruct (init_Ok_inv _ _ _ _ _ Hinit) as (Hself & Hts & [b Hb] & Hps & Hev).
  assert (tournament_size self = ts) as Ets by by rewrite Hself.
  assert (population_size self = ps) as Eps by by rewrite Hself.
  assert (elitism self = PyBool b) as Eel by by rewrite Hself, Hb.
  destruct (elitism_spec self population Hne)
    as (e & best & max_id & Hel & Hmax & He & Hrank & Hbest).
  unfold select. rewrite Hel, Eel. simpl.
  destruct b; simpl.
  - destruct (select_loop_spec self population (rank_of self population)
                (Z.to_nat (population_size self - 1)) max_id
                [clone (clone best None true) None false] g)
      as (offs & g' & -> & Hlen & Hoffs); [lia|apply rank_of_length|done|].
    exists e, best, max_id, offs, g'. split_and!; try done.
    simpl. rewrite Hlen. lia.
  - destruct (select_loop_spec self population (rank_of self population)
                (Z.to_nat (population_size self)) max_id [] g)
      as (offs & g' & -> & Hlen & Hoffs); [lia|apply rank_of_length|done|].
    exists e, best, max_id, offs, g'. split_and!; try done.
    simpl. rewrite Hlen. lia.
Qed.


(** C4. For a non-empty population of any length, with elitism on or
    off, the new population has exactly [population_size] members. *)
Theorem select_length ts el ps ev self population g :
  __init__ ts el ps ev = Ok self → population ≠ [] →
  ∃ elite new_population g',
    select self population g = (Ok (elite, new_population), g') ∧
    Z.of_nat (length new_population) = population_size self.
Proof.
  intros Hinit Hne.
  destruct (select_spec _ _ _ _ _ population g Hinit Hne)
    as (e & best & max_id & offs & g' & Hsel & _ & _ & _ & _ & Hlen & _).
  eexists _, _, g'. split; [exact Hsel|]. by rewrite length_app.
Qed.


End props.

Import Samples.

Lemma tournament_winner_is_best_draw_witness :
  ∃ w k r, _tournament (np := RefNumpy.numpy) selection0 [0; 2; 1]%nat 42
             = (Ok w, 1116302264) ∧
    Z.of_nat (length [0; 2]%nat) = tournament_size selection0 ∧
    [0; 2]%nat !! k = Some w ∧ [0; 2; 1]%nat !! w = Some r ∧
    (∀ j i rj, [0; 2]%nat !! j = Some i → [0; 2; 1]%nat !! i = Some rj →
               (rj ≤ r)%nat) ∧
    (∀ j i rj, (j < k)%nat → [0; 2]%nat !! j = Some i →
               [0; 2; 1]%nat !! i = Some rj → (rj < r)%nat).
Proof.
  apply (tournament_winner_is_best_draw (np := RefNumpy.numpy)
           selection0 [0; 2; 1]%nat 42 [0; 2]%nat 1116302264).
  - reflexivity.
  - discriminate.
  - vm_compute. reflexivity.
Defined.


Lemma select_length_witness :
  ∃ elite new_population g',
    select (np := RefNumpy.numpy) selection0 population0 42
      = (Ok (elite, new_population), g') ∧
    Z.of_nat (length new_population) = population_size selection0.
Proof.
  apply (select_length (np := RefNumpy.numpy) 2 (PyBool true) 4 2).
  - reflexivity.
  - discriminate.
Defined.


(** On the sample population the elite is the second individual and
    the three offspring carry the indices 8, 9 and 10. *)
Example select_sample :
  (select (np := RefNumpy.numpy) selection0 population0 42).1 =
    Ok ({| index := 7; fitness := [Qc_of_Z 3; Qc_of_Z 9]; owned := () |},
        [ {| index := 7; fitness := [Qc_of_Z 3; Qc_of_Z 9]; owned := () |};
          {| index := 8; fitness := [Qc_of_Z 3; Qc_of_Z 4]; owned := () |};
          {| index := 9; fitness := [Qc_of_Z 3; Qc_of_Z 9]; owned := () |};
          {| index := 10; fitness := [Qc_of_Z 3; Qc_of_Z 9]; owned := () |} ]).
Proof. vm_compute. reflexivity. Qed.

End TournamentProps.

(** ** Mutation probabilities *)

Module EvolvableProps.
Import Evolvable.

Lemma dict_set_fresh {K V} `{EqDecision K} (k : K) (v : V) d :
  k ∉ d.*1 → dict_set k v d = d ++ [(k, v)].
Proof.
  induction d as [|[k' v'] d IH]; simpl; [done|].
  rewrite not_elem_of_cons. intros [Hne Hnin].
  destruct (decide (k' = k)) as [->|_]; [done|]. by rewrite IH.
Qed.

Lemma entries_keys t attrs k : k ∈ (entries t attrs).*1 → k ∈ attrs.*1.
Proof.
  unfold entries. rewrite !list_elem_of_fmap.
  intros ([k' m] & -> & Hin). apply list_elem_of_omap in Hin as ([k'' a] & Hin & Ha).
  simpl in *. destruct a as [m'|]; [|done]. case_decide; [|done].
  injection Ha as -> ->. by exists (k', Method m).
Qed.

Lemma entries_values t attrs : dict_values (entries t attrs) = of_type t (registered attrs).
Proof.
  unfold dict_values, entries, of_type, registered.
  induction attrs as [|[k [m|]] attrs IH]; csimpl; [done| |done].
  rewrite filter_cons. case_decide; csimpl; by rewrite IH.
Qed.

Lemma populate_spec attrs layer node :
  NoDup attrs.*1 →
  (∀ k, k ∈ attrs.*1 → (k ∉ layer.*1) ∧ (k ∉ node.*1)) →
  populate attrs layer node = (layer ++ entries LAYER attrs, node ++ entries NODE attrs).
Proof.
  revert layer node. induction attrs as [|[k a] attrs IH]; intros layer node; csimpl.
  { intros _ _. by rewrite !app_nil_r. }
  rewrite NoDup_cons. intros [Hk Hnd] Hfresh.
  destruct (Hfresh k) as [Hl Hn]; [by left|].
  assert (∀ k', k' ∈ attrs.*1 → k' ≠ k) as Hne by (intros k' Hin ->; done).
  destruct a as [m|].
  - unfold entries at 1 2. csimpl. destruct (_mutation_type m) eqn:Hm.
    + rewrite decide_True, decide_False by done. csimpl.
      rewrite IH; [|done|].
      * rewrite dict_set_fresh by done. by rewrite <-app_assoc.
      * intros k' Hk'. destruct (Hfresh k') as [Hl' Hn']; [by right|].
        split; [|done]. rewrite dict_set_fresh, fmap_app, elem_of_app by done.
        intros [?|Hin]; [done|]. apply list_elem_of_singleton in Hin.
        simpl in Hin. by apply (Hne k').
    + rewrite decide_False, decide_True by done. csimpl.
      rewrite IH; [|done|].
      * rewrite dict_set_fresh by done. by rewrite <-app_assoc.
      * intros k' Hk'. destruct (Hfresh k') as [Hl' Hn']; [by right|].
        split; [done|]. rewrite dict_set_fresh, fmap_app, elem_of_app by done.
        intros [?|Hin]; [done|]. apply list_elem_of_singleton in Hin.
        simpl in Hin. by apply (Hne k').
  - unfold entries at 1 2. csimpl. apply IH; [done|].
    intros k' Hk'. apply Hfresh. by right.
Qed.

Lemma registered_names attrs :
  NoDup attrs.*1 → own_names attrs →
  NoDup (__name__ <$> registered attrs) ∧
  ∀ x, x ∈ __name__ <$> registered attrs → x ∈ attrs.*1.
Proof.
  unfold registered, own_names.
  induction attrs as [|[k a] attrs IH]; csimpl; intros Hnd Hown.
  { split; [constructor|done]. }
  apply NoDup_cons in Hnd as [Hk Hnd].
  apply Forall_cons in Hown as [Hm Hown]. simpl in Hm.
  destruct IH as [IH1 IH2]; [done|done|].
  destruct a as [m|]; csimpl.
  - split.
    + constructor; [|done]. rewrite Hm. intros Hin. by apply Hk, IH2.
    + intros x [->|Hin]%elem_of_cons; [rewrite Hm; by left|]. right. by apply IH2.
  - split; [done|]. intros x Hin. right. by apply IH2.
Qed.

Lemma of_type_split ms : of_type LAYER ms ++ of_type NODE ms ≡ₚ ms.
Proof.
  unfold of_type. induction ms as [|m ms IH]; [done|].
  rewrite !filter_cons. destruct (_mutation_type m) eqn:Hm.
  - rewrite decide_True, decide_False by done. simpl. by rewrite IH.
  - rewrite decide_False, decide_True by done.
    rewrite <-Permutation_middle. by rewrite IH.
Qed.

Lemma foldl_dict_set (ms : list MutationMethod) acc :
  NoDup (__name__ <$> ms) →
  (∀ x, x ∈ __name__ <$> ms → x ∉ acc.*1) →
  foldl (λ d method, dict_set (__name__ method) method d) acc ms
    = acc ++ ((λ m, (__name__ m, m)) <$> ms).
Proof.
  revert acc. induction ms as [|m ms IH]; intros acc; csimpl.
  { intros _ _. by rewrite app_nil_r. }
  rewrite NoDup_cons. intros [Hm Hnd] Hfresh.
  rewrite dict_set_fresh by (apply Hfresh; by left).
  rewrite IH; [by rewrite <-app_assoc|done|].
  intros x Hx. rewrite fmap_app, elem_of_app. intros [Hin|Hin].
  - by apply (Hfresh x); [right|].
  - apply list_elem_of_singleton in Hin. simpl in Hin. by subst.
Qed.


(** Equality of computed rationals: compare the fractions. *)
Lemma Qc_list_ext (l k : list Qc) :
  Forall2 (λ a b : Qc, (a == b)%Q) l k → l = k.
Proof.
  induction 1 as [|a b l k Hab _ IH]; [done|].
  f_equal; [by apply Qc_is_canon|done].
Qed.

Ltac Qc_list_eq :=
  apply (f_equal Ok), Qc_list_ext; vm_compute;
  repeat (constructor; [reflexivity|]); constructor.

Lemma Qc_sum_app l k : Qc_sum (l ++ k) = (Qc_sum l + Qc_sum k)%Qc.
Proof.
  unfold Qc_sum. induction l as [|x l IH]; simpl.
  - by rewrite Qcplus_0_l.
  - by rewrite IH, Qcplus_assoc.
Qed.

Lemma Qc_sum_const {A} (f : A → Qc) c (l : list A) :
  Forall (λ x, f x = c) l →
  Qc_sum (f <$> l) = (Qc_of_Z (Z.of_nat (length l)) * c)%Qc.
Proof.
  induction 1 as [|x l Hx _ IH].
  - change (Z.of_nat (length [])) with 0. by rewrite Z2Qc_inj_0, Qcmult_0_l.
  - rewrite fmap_cons. unfold Qc_sum in *. cbn [foldr length].
    rewrite IH, Hx.
    rewrite Nat2Z.inj_succ, <-Z.add_1_l, Z2Qc_inj_add, Z2Qc_inj_1. ring.
Qed.

Lemma Qc_of_nat_pos n : (0 < n)%nat → (0 < Qc_of_Z (Z.of_nat n))%Qc.
Proof.
  intros Hn. rewrite <-Z2Qc_inj_0.
  apply (proj1 (Z2Qc_inj_lt 0 (Z.of_nat n))). lia.
Qed.

Lemma Qc_share_back (x : Qc) n :
  (0 < n)%nat → (Qc_of_Z (Z.of_nat n) * (x / Qc_of_Z (Z.of_nat n)))%Qc = x.
Proof.
  intros Hn. pose proof (Qc_of_nat_pos n Hn) as Hpos.
  field. intros Heq. rewrite Heq in Hpos. by apply Qclt_not_eq in Hpos.
Qed.

Lemma Qc_div_nonneg (x y : Qc) : (0 ≤ x)%Qc → (0 < y)%Qc → (0 ≤ x / y)%Qc.
Proof.
  intros Hx Hy. unfold Qcdiv.
  apply Qcmult_nonneg_nonneg; [done|].
  apply Qclt_le_weak. by apply Qcinv_pos.
Qed.

Lemma of_type_type t ms : Forall (λ m, _mutation_type m = t) (of_type t ms).
Proof. apply Forall_forall. intros m Hm. by apply list_elem_of_filter in Hm as []. Qed.

Section probs.

Context (class_vars : list (string * class_attr)) (name : string) (p : Qc).
Context (Hnd : NoDup class_vars.*1) (Hown : own_names class_vars).

Let self := __init__ class_vars name.
Let layer_ops := of_type LAYER (registered class_vars).
Let node_ops := of_type NODE (registered class_vars).


Lemma probs_sum_layer :
  (0 < length layer_ops)%nat →
  Qc_sum (share p (length layer_ops) (length node_ops) <$> layer_ops) = p.
Proof.
  intros Hpos.
  rewrite (Qc_sum_const _ (p / Qc_of_Z (Z.of_nat (length layer_ops)))%Qc).
  - by apply Qc_share_back.
  - eapply Forall_impl; [apply of_type_type|]. intros m Hm. unfold share. by rewrite Hm.
Qed.

Lemma probs_sum_node :
  (0 < length node_ops)%nat →
  Qc_sum (share p (length layer_ops) (length node_ops) <$> node_ops) = (1 - p)%Qc.
Proof.
  intros Hpos.
  rewrite (Qc_sum_const _ ((1 - p) / Qc_of_Z (Z.of_nat (length node_ops)))%Qc).
  - by apply Qc_share_back.
  - eapply Forall_impl; [apply of_type_type|]. intros m Hm. unfold share. by rewrite Hm.
Qed.

End probs.

(** What [__init__] leaves in the module when the registered methods
    have pairwise distinct [__name__]s, under whatever attribute names
    they sit. *)
Lemma init_spec_names class_vars name :
  NoDup class_vars.*1 → NoDup (__name__ <$> registered class_vars) →
  let self := __init__ class_vars name in
  let ops := of_type LAYER (registered class_vars)
             ++ of_type NODE (registered class_vars) in
  dict_values (get_mutation_methods self) = ops ∧
  length (_layer_mutation_methods self) = length (of_type LAYER (registered class_vars)) ∧
  length (_node_mutation_methods self) = length (of_type NODE (registered class_vars)).
Proof.
  intros Hnd Hnames. unfold __init__.
  rewrite populate_spec by (done || (intros; simpl; split; apply not_elem_of_nil)).
  simpl. rewrite !entries_values.
  repeat split.
  - unfold get_mutation_methods. simpl.
    rewrite foldl_dict_set.
    + unfold dict_values. simpl. rewrite <-list_fmap_compose. apply list_fmap_id.
    + by rewrite of_type_split.
    + intros. apply not_elem_of_nil.
  - by rewrite <-entries_values; unfold dict_values; rewrite length_fmap.
  - by rewrite <-entries_values; unfold dict_values; rewrite length_fmap.
Qed.

Lemma get_mutation_probs_names_Ok class_vars name p :
  NoDup class_vars.*1 → NoDup (__name__ <$> registered class_vars) →
  get_mutation_probs (__init__ class_vars name) p =
    Ok (share p (length (of_type LAYER (registered class_vars)))
                (length (of_type NODE (registered class_vars)))
          <$> (of_type LAYER (registered class_vars)
               ++ of_type NODE (registered class_vars))).
Proof.
  intros Hnd Hnames.
  destruct (init_spec_names class_vars name Hnd Hnames) as (Hvals & HnL & HnN).
  unfold get_mutation_probs. simpl in Hvals, HnL, HnN. rewrite Hvals, HnL, HnN.
  apply res_mapM_Ok, Forall_forall. intros fn Hfn. unfold share, py_div.
  apply elem_of_app in Hfn as [Hfn|Hfn].
  - assert (_mutation_type fn = LAYER) as ->.
    { by apply list_elem_of_filter in Hfn as []. }
    destruct (Nat.eqb_spec (length (of_type LAYER (registered class_vars))) 0)
      as [Hz|_]; [|done].
    apply length_zero_iff_nil in Hz. rewrite Hz in Hfn. by apply elem_of_nil in Hfn.
  - assert (_mutation_type fn = NODE) as ->.
    { by apply list_elem_of_filter in Hfn as []. }
    destruct (Nat.eqb_spec (length (of_type NODE (registered class_vars))) 0)
      as [Hz|_]; [|done].
    apply length_zero_iff_nil in Hz. rewrite Hz in Hfn. by apply elem_of_nil in Hfn.
Qed.

(** C8, as amended. For a class whose registered methods have pairwise
    distinct [__name__]s, [get_mutation_probs] returns one probability
    per registered operation, in the order of [get_mutation_methods]:
    every LAYER operation gets [new_layer_prob / #LAYER] and every NODE
    operation gets [(1 - new_layer_prob) / #NODE]; in particular when
    both classes are non-empty. *)
Theorem mutation_probs_by_class class_vars name new_layer_prob :
  NoDup class_vars.*1 → NoDup (__name__ <$> registered class_vars) →
  let self := __init__ class_vars name in
  let ops := dict_values (get_mutation_methods self) in
  let num_layer := length (of_type LAYER (registered class_vars)) in
  let num_node := length (of_type NODE (registered class_vars)) in
  ∃ probs, get_mutation_probs self new_layer_prob = Ok probs ∧
    ops ≡ₚ registered class_vars ∧
    Forall2 (λ fn pr,
        pr = match _mutation_type fn with
             | LAYER => (new_layer_prob / Qc_of_Z (Z.of_nat num_layer))%Qc
             | NODE => ((1 - new_layer_prob) / Qc_of_Z (Z.of_nat num_node))%Qc
             end) ops probs.
Proof.
  intros Hnd Hnames self ops num_layer num_node.
  destruct (init_spec_names class_vars name Hnd Hnames) as (Hvals & _).
  eexists. split; [by apply get_mutation_probs_names_Ok|].
  unfold ops, self. rewrite Hvals. split; [apply of_type_split|].
  apply Forall2_fmap_r, Forall_Forall2_diag, Forall_forall.
  intros fn _. done.
Qed.

(** C10, as amended. For a class whose registered methods have
    pairwise distinct [__name__]s, the probabilities sum to [1] when
    both classes are non-empty, and then form a probability
    distribution for [new_layer_prob] in [[0, 1]]. With no LAYER
    operation they sum to [1 - new_layer_prob], with no NODE operation
    to [new_layer_prob]; they form a probability distribution exactly
    when that sum is [1]. *)
Theorem mutation_probs_sum class_vars name new_layer_prob :
  NoDup class_vars.*1 → NoDup (__name__ <$> registered class_vars) →
  let self := __init__ class_vars name in
  let num_layer := length (of_type LAYER (registered class_vars)) in
  let num_node := length (of_type NODE (registered class_vars)) in
  ∃ probs, get_mutation_probs self new_layer_prob = Ok probs ∧
    ((0 < num_layer)%nat → (0 < num_node)%nat →
       Qc_sum probs = 1%Qc ∧
       ((0 ≤ new_layer_prob)%Qc ∧ (new_layer_prob ≤ 1)%Qc → is_distribution probs)) ∧
    (num_layer = 0%nat → (0 < num_node)%nat →
       Qc_sum probs = (1 - new_layer_prob)%Qc ∧
       (is_distribution probs ↔ new_layer_prob = 0%Qc)) ∧
    ((0 < num_layer)%nat → num_node = 0%nat →
       Qc_sum probs = new_layer_prob ∧
       (is_distribution probs ↔ new_layer_prob = 1%Qc)).
Proof.
  intros Hnd Hnames self num_layer num_node.
  eexists. split; [by apply get_mutation_probs_names_Ok|].
  fold num_layer num_node.
  set (layer_ops := of_type LAYER (registered class_vars)) in *.
  set (node_ops := of_type NODE (registered class_vars)) in *.
  assert (∀ fn, fn ∈ layer_ops →
            share new_layer_prob num_layer num_node fn
            = (new_layer_prob / Qc_of_Z (Z.of_nat num_layer))%Qc) as HL.
  { intros fn Hfn. unfold share.
    by apply list_elem_of_filter in Hfn as [-> _]. }
  assert (∀ fn, fn ∈ node_ops →
            share new_layer_prob num_layer num_node fn
            = ((1 - new_layer_prob) / Qc_of_Z (Z.of_nat num_node))%Qc) as HN.
  { intros fn Hfn. unfold share.
    by apply list_elem_of_filter in Hfn as [-> _]. }
  split_and!.
  - intros HnL HnN. split.
    + rewrite fmap_app, Qc_sum_app.
      unfold num_layer, num_node, layer_ops, node_ops.
      rewrite probs_sum_layer, probs_sum_node by done. ring.
    + intros [H0 H1]. split.
      * apply Forall_fmap, Forall_app. split; apply Forall_forall; intros fn Hfn; simpl.
        -- rewrite HL by done. apply Qc_div_nonneg; [done|by apply Qc_of_nat_pos].
        -- rewrite HN by done. apply Qc_div_nonneg; [|by apply Qc_of_nat_pos].
           by apply Qcle_minus_iff in H1.
      * rewrite fmap_app, Qc_sum_app.
        unfold num_layer, num_node, layer_ops, node_ops.
        rewrite probs_sum_layer, probs_sum_node by done. ring.
  - intros HnL HnN.
    assert (Qc_sum (share new_layer_prob num_layer num_node <$> node_ops)
            = (1 - new_layer_prob)%Qc) as Hsum.
    { unfold num_layer, num_node, node_ops. by apply probs_sum_node. }
    assert (layer_ops = []) as Hnil by by apply length_zero_iff_nil.
    rewrite Hnil, app_nil_l.
    split; [done|]. split.
    + intros [_ Hone]. rewrite Hsum in Hone.
      assert (new_layer_prob = 1 - (1 - new_layer_prob))%Qc as -> by ring.
      rewrite Hone. ring.
    + intros ->. split; [|rewrite Hsum; ring].
      apply Forall_fmap, Forall_forall. intros fn Hfn. simpl.
      rewrite HN by done. apply Qc_div_nonneg; [done|by apply Qc_of_nat_pos].
  - intros HnL HnN.
    assert (Qc_sum (share new_layer_prob num_layer num_node <$> layer_ops)
            = new_layer_prob) as Hsum.
    { unfold num_layer, num_node, layer_ops. by apply probs_sum_layer. }
    assert (node_ops = []) as Hnil by by apply length_zero_iff_nil.
    rewrite Hnil, app_nil_r.
    split; [done|]. split.
    + intros [_ Hone]. by rewrite Hsum in Hone.
    + intros ->. split; [|done].
      apply Forall_fmap, Forall_forall. intros fn Hfn. simpl.
      rewrite HL by done. apply Qc_div_nonneg; [done|by apply Qc_of_nat_pos].
Qed.

Import Samples MoreSamples.

Lemma mlp_vars_ok : NoDup mlp_vars.*1 ∧ own_names mlp_vars.
Proof. split; apply (bool_decide_unpack _); vm_compute; exact I. Qed.

Lemma mlp_names_ok : NoDup (__name__ <$> registered mlp_vars).
Proof. apply (bool_decide_unpack _); vm_compute; exact I. Qed.

Lemma mutation_probs_by_class_witness :
  let self := __init__ mlp_vars "mlp" in
  let ops := dict_values (get_mutation_methods self) in
  let num_layer := length (of_type LAYER (registered mlp_vars)) in
  let num_node := length (of_type NODE (registered mlp_vars)) in
  ∃ probs, get_mutation_probs self (Q2Qc (1 # 5)) = Ok probs ∧
    ops ≡ₚ registered mlp_vars ∧
    Forall2 (λ fn pr,
        pr = match _mutation_type fn with
             | LAYER => (Q2Qc (1 # 5) / Qc_of_Z (Z.of_nat num_layer))%Qc
             | NODE => ((1 - Q2Qc (1 # 5)) / Qc_of_Z (Z.of_nat num_node))%Qc
             end) ops probs.
Proof.
  apply (mutation_probs_by_class mlp_vars "mlp" (Q2Qc (1 # 5))).
  - apply mlp_vars_ok.
  - apply mlp_names_ok.
Defined.

Lemma mutation_probs_sum_witness :
  let self := __init__ mlp_vars "mlp" in
  let num_layer := length (of_type LAYER (registered mlp_vars)) in
  let num_node := length (of_type NODE (registered mlp_vars)) in
  ∃ probs, get_mutation_probs self (Q2Qc (1 # 5)) = Ok probs ∧
    ((0 < num_layer)%nat → (0 < num_node)%nat →
       Qc_sum probs = 1%Qc ∧
       ((0 ≤ Q2Qc (1 # 5))%Qc ∧ (Q2Qc (1 # 5) ≤ 1)%Qc → is_distribution probs)) ∧
    (num_layer = 0%nat → (0 < num_node)%nat →
       Qc_sum probs = (1 - Q2Qc (1 # 5))%Qc ∧
       (is_distribution probs ↔ Q2Qc (1 # 5) = 0%Qc)) ∧
    ((0 < num_layer)%nat → num_node = 0%nat →
       Qc_sum probs = Q2Qc (1 # 5) ∧
       (is_distribution probs ↔ Q2Qc (1 # 5) = 1%Qc)).
Proof.
  apply (mutation_probs_sum mlp_vars "mlp" (Q2Qc (1 # 5))).
  - apply mlp_vars_ok.
  - apply mlp_names_ok.
Defined.

(** On the sample class: one layer method and two node methods. *)
Example mutation_probs_sample :
  get_mutation_probs (__init__ mlp_vars "mlp") (Q2Qc (1 # 5))
    = Ok [Q2Qc (1 # 5); Q2Qc (2 # 5); Q2Qc (2 # 5)].
Proof. Qc_list_eq. Qed.

(** A class that registers one layer method under two names, next to
    a node method: both classes are non-empty and three operations are
    registered, two of them LAYER, yet [get_mutation_probs] returns two
    probabilities, the layer one being [new_layer_prob / 2]. *)
Lemma aliased_methods_share_one_probability :
  NoDup aliased_vars.*1 ∧
  length (of_type LAYER (registered aliased_vars)) = 2%nat ∧
  length (of_type NODE (registered aliased_vars)) = 1%nat ∧
  length (registered aliased_vars) = 3%nat ∧
  length (get_mutation_methods (__init__ aliased_vars "net")) = 2%nat ∧
  get_mutation_probs (__init__ aliased_vars "net") (Q2Qc (1 # 5))
    = Ok [Q2Qc (1 # 10); Q2Qc (4 # 5)].
Proof.
  split_and!.
  - apply (bool_decide_unpack _); vm_compute; exact I.
  - reflexivity.
  - reflexivity.
  - reflexivity.
  - reflexivity.
  - Qc_list_eq.
Qed.

(** Two classes on which the sums are not as a distribution needs them.
    With one layer method under two names both classes are non-empty
    and the probabilities for [new_layer_prob = 1/5] sum to [9/10].
    With node mutations only and [new_layer_prob = 0] one class is
    empty, and the probabilities returned are the distribution that
    gives the single node method probability one. *)
Lemma mutation_probs_sum_counterexamples :
  (NoDup aliased_vars.*1 ∧
   of_type LAYER (registered aliased_vars) ≠ [] ∧
   of_type NODE (registered aliased_vars) ≠ [] ∧
   get_mutation_probs (__init__ aliased_vars "net") (Q2Qc (1 # 5))
     = Ok [Q2Qc (1 # 10); Q2Qc (4 # 5)] ∧
   Qc_sum [Q2Qc (1 # 10); Q2Qc (4 # 5)] = Q2Qc (9 # 10) ∧
   Q2Qc (9 # 10) ≠ 1%Qc) ∧
  (NoDup node_only_vars.*1 ∧ own_names node_only_vars ∧
   of_type LAYER (registered node_only_vars) = [] ∧
   of_type NODE (registered node_only_vars) ≠ [] ∧
   get_mutation_probs (__init__ node_only_vars "net") 0%Qc = Ok [1%Qc] ∧
   is_distribution [1%Qc]).
Proof.
  split; split_and!.
  - apply (bool_decide_unpack _); vm_compute; exact I.
  - discriminate.
  - discriminate.
  - Qc_list_eq.
  - apply Qc_is_canon. reflexivity.
  - discriminate.
  - apply (bool_decide_unpack _); vm_compute; exact I.
  - apply (bool_decide_unpack _); vm_compute; exact I.
  - reflexivity.
  - discriminate.
  - Qc_list_eq.
  - split; [by repeat constructor|]. unfold Qc_sum. simpl. ring.
Qed.

End EvolvableProps.

(** ** Activation mutation *)

Module MutationsProps.
Import Mutations.

Lemma filter_absent (l : list string) x :
  x ∉ l → filter (λ a, a ≠ x) l = l.
Proof.
  induction l as [|a l IH]; [done|].
  rewrite not_elem_of_cons. intros [Hne Hnin].
  rewrite filter_cons_True by done. by rewrite IH.
Qed.

Lemma filter_ne_length (l : list string) x :
  NoDup l → (length l ≤ S (length (filter (λ a, a ≠ x) l)))%nat.
Proof.
  induction 1 as [|a l Ha Hnd IH]; simpl; [lia|].
  rewrite filter_cons. destruct (decide (a ≠ x)) as [Hne|Heq]; simpl; [lia|].
  apply dec_stable in Heq. subst a.
  rewrite filter_absent by done. lia.
Qed.

(** C9. With more than one candidate configured, none listed twice, an
    activation mutation succeeds, tags the individual ["act"], and
    leaves it an activation taken from the candidates and different
    from the one it had. With a single candidate the mutation selects
    that candidate, also when it is the activation the individual
    already has. *)
Theorem activation_mutation_changes (activation_selection : list string)
    (draw : nat) (individual : agent) :
  NoDup activation_selection →
  (1 ≤ length activation_selection)%nat →
  ∃ mutated, activation_mutation activation_selection draw individual = Ok mutated ∧
    mut mutated = "act" ∧
    activation (actor mutated) ∈ activation_selection ∧
    ((1 < length activation_selection)%nat →
       activation (actor mutated) ≠ activation (actor individual)) ∧
    (activation_selection = [activation (actor individual)] →
       activation (actor mutated) = activation (actor individual)).
Proof.
  intros Hnd Hlen. unfold activation_mutation, permutate_activation, candidates.
  set (current := activation (actor individual)).
  destruct (Nat.eqb_spec (length activation_selection) 1) as [Hone|Hmore].
  - destruct activation_selection as [|a [|b l]]; simpl in Hone; try lia.
    simpl. eexists. split; [done|]. simpl.
    split_and!; [done|by left|intros; lia|by intros [= ->]].
  - set (cands := filter (λ a, a ≠ current) activation_selection).
    pose proof (filter_ne_length activation_selection current Hnd) as Hcands.
    fold cands in Hcands.
    assert (draw `mod` length cands < length cands)%nat as Hlt.
    { apply Nat.mod_upper_bound. lia. }
    destruct (lookup_lt_is_Some_2 cands _ Hlt) as [a Ha]. rewrite Ha.
    apply list_elem_of_lookup_2, list_elem_of_filter in Ha as [Hne Hin].
    simpl. eexists. split; [done|]. simpl.
    split_and!; [done|done|done|].
    intros Heq. rewrite Heq in Hmore. done.
Qed.

Import Samples.

Lemma activation_mutation_changes_witness :
  ∃ mutated,
    activation_mutation ["Tanh"; "ReLU"; "ELU"; "GELU"] 6 relu_agent = Ok mutated ∧
    mut mutated = "act" ∧
    activation (actor mutated) ∈ ["Tanh"; "ReLU"; "ELU"; "GELU"] ∧
    ((1 < length ["Tanh"; "ReLU"; "ELU"; "GELU"])%nat →
       activation (actor mutated) ≠ activation (actor relu_agent)) ∧
    (["Tanh"; "ReLU"; "ELU"; "GELU"] = [activation (actor relu_agent)] →
       activation (actor mutated) = activation (actor relu_agent)).
Proof.
  apply (activation_mutation_changes ["Tanh"; "ReLU"; "ELU"; "GELU"] 6 relu_agent).
  - apply (bool_decide_unpack _); vm_compute; exact I.
  - simpl; lia.
Defined.

(** The sample agent goes from ["ReLU"] to ["Tanh"] on draw 6, and with
    ["ReLU"] as the only candidate it stays at ["ReLU"]. *)
Example activation_mutation_sample :
  activation_mutation ["Tanh"; "ReLU"; "ELU"; "GELU"] 6 relu_agent =
    Ok {| actor := {| activation := "Tanh"; hidden_size := [8]%nat |};
          mut := "act" |} ∧
  activation_mutation ["ReLU"] 6 relu_agent =
    Ok {| actor := {| activation := "ReLU"; hidden_size := [8]%nat |};
          mut := "act" |}.
Proof. split; reflexivity. Qed.

End MutationsProps.

(** ** Tensors *)

Module TensorProps.

Lemma bind_lookup_block {A B} (f : A → list B) m (l : list A) i j x :
  Forall (λ y, length (f y) = m) l →
  l !! i = Some x → (j < m)%nat →
  (l ≫= f) !! (i * m + j)%nat = f x !! j.
Proof.
  intros Hl. revert i. induction Hl as [|y l Hy _ IH]; intros i; [done|].
  rewrite bind_cons. destruct i as [|i]; simpl.
  - intros [= ->] Hj. apply lookup_app_l. lia.
  - intros Hi Hj. rewrite lookup_app_r by lia.
    replace (m + i * m + j - length (f y))%nat with (i * m + j)%nat by lia.
    by apply IH.
Qed.

Lemma bind_length_block {A B} (f : A → list B) m (l : list A) :
  Forall (λ y, length (f y) = m) l → length (l ≫= f) = (length l * m)%nat.
Proof.
  induction 1 as [|y l Hy _ IH]; [done|].
  rewrite bind_cons, length_app, IH, Hy. simpl. lia.
Qed.

Lemma length_indices s : length (indices s) = numel s.
Proof.
  induction s as [|n s IH]; [done|]. simpl.
  rewrite (bind_length_block _ (numel s)).
  - by rewrite length_seq.
  - apply Forall_forall. intros i _. by rewrite length_fmap.
Qed.

Lemma in_range_length s idx : in_range s idx = true → length idx = length s.
Proof.
  revert idx. induction s as [|n s IH]; intros [|i idx]; simpl; try done.
  intros [_ H]%andb_prop. f_equal. by apply IH.
Qed.

Lemma offset_lt s idx : in_range s idx = true → (offset s idx < numel s)%nat.
Proof.
  revert idx. induction s as [|n s IH]; intros [|i idx]; simpl; try done; [lia|].
  intros [Hi H]%andb_prop. apply Nat.ltb_lt in Hi. specialize (IH idx H). nia.
Qed.

Lemma indices_lookup s idx :
  in_range s idx = true → indices s !! offset s idx = Some idx.
Proof.
  revert idx. induction s as [|n s IH]; intros [|i idx]; simpl; try done.
  intros [Hi H]%andb_prop. apply Nat.ltb_lt in Hi.
  rewrite (bind_lookup_block _ (numel s) _ _ _ i).
  - by rewrite list_lookup_fmap, IH.
  - apply Forall_forall. intros j _. by rewrite length_fmap, length_indices.
  - by apply lookup_seq_lt.
  - by apply offset_lt.
Qed.

Lemma elem_of_indices s idx : idx ∈ indices s → in_range s idx = true.
Proof.
  revert idx. induction s as [|n s IH]; intros idx; simpl.
  - by intros ->%list_elem_of_singleton.
  - intros (i & Hidx & Hi)%list_elem_of_bind.
    apply list_elem_of_fmap in Hidx as (idx' & -> & Hidx').
    apply elem_of_seq in Hi. simpl.
    apply andb_true_intro. split; [apply Nat.ltb_lt; lia|by apply IH].
Qed.

Lemma res_mapM_total {A B} (f : A → res B) l :
  Forall (λ x, ∃ y, f x = Ok y) l → ∃ k, res_mapM f l = Ok k.
Proof.
  induction 1 as [|x l [y Hy] _ [k IH]]; simpl; [by eexists|].
  rewrite Hy, IH. simpl. by eexists.
Qed.

Section tensor.

Context {V : Type}.
Implicit Types (t : tensor V) (s idx ms : list nat).

Lemma tget_wf t idx :
  wf_tensor t → in_range (size t) idx = true → ∃ v, tget t idx = Ok v.
Proof.
  intros Hwf Hidx. unfold tget. rewrite Hidx.
  destruct (getitem_lt (data t) (offset (size t) idx)) as (v & Hv & _); [|by eexists].
  rewrite Hwf. by apply offset_lt.
Qed.

(** A tabulated tensor has the given size and the given elements. *)
Lemma tabulate_Ok s (f : list nat → res V) :
  (∀ idx, in_range s idx = true → ∃ v, f idx = Ok v) →
  ∃ t, tabulate s f = Ok t ∧ size t = s ∧ wf_tensor t ∧
       ∀ idx, in_range s idx = true → tget t idx = f idx.
Proof.
  intros Hf. unfold tabulate.
  destruct (res_mapM_total f (indices s)) as [d Hd].
  { apply Forall_forall. intros idx Hidx. by apply Hf, elem_of_indices. }
  rewrite Hd. simpl. eexists. split; [done|]. simpl. split; [done|]. split.
  - unfold wf_tensor. simpl.
    by rewrite (res_mapM_length _ _ _ Hd), length_indices.
  - intros idx Hidx. unfold tget. simpl. rewrite Hidx.
    destruct (res_mapM_lookup _ _ _ _ _ Hd (indices_lookup s idx Hidx))
      as (v & Hv & Hfv).
    rewrite Hfv. by apply getitem_Ok.
Qed.

Lemma tabulate_inv s (f : list nat → res V) t :
  tabulate s f = Ok t →
  size t = s ∧ ∀ idx, in_range s idx = true → tget t idx = f idx.
Proof.
  unfold tabulate. destruct (res_mapM f (indices s)) as [d|] eqn:Hd; [|done].
  simpl. intros [= <-]. split; [done|].
  intros idx Hidx. unfold tget. simpl. rewrite Hidx.
  destruct (res_mapM_lookup _ _ _ _ _ Hd (indices_lookup s idx Hidx))
    as (v & Hv & Hfv).
  rewrite Hfv. by apply getitem_Ok.
Qed.

Lemma tabulate_ext s (f g : list nat → res V) :
  (∀ idx, in_range s idx = true → f idx = g idx) → tabulate s f = tabulate s g.
Proof.
  intros Hfg. unfold tabulate. rewrite (res_mapM_ext f g); [done|].
  apply Forall_forall. intros idx Hidx. by apply Hfg, elem_of_indices.
Qed.

Lemma slice_size_in_range ms s view idx :
  slice_size ms s = Ok view → in_range view idx = true → in_range s idx = true.
Proof.
  revert s view idx. induction ms as [|m ms IH]; intros s view idx; simpl.
  { by intros [= ->]. }
  destruct s as [|n s]; [done|].
  destruct (slice_size ms s) as [rest|] eqn:Hrest; [|done]. simpl.
  intros [= <-]. destruct idx as [|i idx]; simpl; [done|].
  intros [Hi H]%andb_prop. apply Nat.ltb_lt in Hi.
  apply andb_true_intro. split; [apply Nat.ltb_lt; lia|by eapply IH].
Qed.

Lemma slice_size_min o n :
  length o = length n →
  slice_size (zip_with Nat.min o n) o = Ok (zip_with Nat.min o n) ∧
  slice_size (zip_with Nat.min o n) n = Ok (zip_with Nat.min o n).
Proof.
  revert n. induction o as [|a o IH]; intros [|b n]; simpl; try done.
  intros [= Hlen]. destruct (IH n Hlen) as [-> ->]. simpl.
  split; do 2 f_equal; lia.
Qed.

Lemma in_range_min o n idx :
  length o = length n →
  in_range (zip_with Nat.min o n) idx = in_range o idx && in_range n idx.
Proof.
  revert n idx. induction o as [|a o IH]; intros [|b n] [|i idx]; simpl; try done.
  intros [= Hlen]. rewrite (IH n idx Hlen).
  destruct (Nat.ltb_spec i (a `min` b)), (Nat.ltb_spec i a), (Nat.ltb_spec i b);
    simpl; try lia; try done.
Qed.

Lemma expandable_rev_app l l' : expandable_rev l (l ++ l') = true.
Proof.
  induction l as [|x l IH]; [done|]. simpl. by rewrite Nat.eqb_refl, IH.
Qed.

Lemma strip_ones_replicate s :
  ∃ k, s = replicate k 1%nat ++ strip_ones s.
Proof.
  induction s as [|n s [k IH]]; [by exists 0%nat|].
  destruct n as [|[|n]]; simpl.
  - by exists 0%nat.
  - exists (S k). simpl. by f_equal.
  - by exists 0%nat.
Qed.

(** A size expands to itself, whatever leading ones are stripped. *)
Lemma expandable_strip s : expandable (strip_ones s) s = true.
Proof.
  unfold expandable. destruct (strip_ones_replicate s) as [k Hk].
  rewrite Hk at 2. rewrite rev_app_distr. apply expandable_rev_app.
Qed.

Lemma zip_with_in_range s idx :
  in_range s idx = true →
  zip_with (λ n i, if (n =? 1)%nat then 0%nat else i) s idx = idx.
Proof.
  revert idx. induction s as [|n s IH]; intros [|i idx]; simpl; try done.
  intros [Hi H]%andb_prop. apply Nat.ltb_lt in Hi. rewrite (IH idx H).
  destruct (Nat.eqb_spec n 1); [f_equal; lia|done].
Qed.

(** Inside the size of the value no broadcasting takes place. *)
Lemma bcast_index_id s idx : in_range s idx = true → bcast_index s idx = idx.
Proof.
  unfold bcast_index. revert idx.
  induction s as [|n s IH]; intros [|i idx]; try done.
  intros Hr. pose proof Hr as [Hi H]%andb_prop. apply Nat.ltb_lt in Hi.
  pose proof (in_range_length _ _ H) as Hlen.
  assert (length (strip_ones s) ≤ length s)%nat as Hle.
  { destruct (strip_ones_replicate s) as [k Hk].
    rewrite Hk at 2. rewrite length_app. lia. }
  destruct (decide (n = 1%nat)) as [->|Hn].
  - assert (i = 0)%nat as -> by lia.
    change (strip_ones (1%nat :: s)) with (strip_ones s).
    replace (length (1%nat :: s) - length (strip_ones s))%nat
      with (S (length s - length (strip_ones s))) by (simpl; lia).
    replace (length (0%nat :: idx) - length (strip_ones s))%nat
      with (S (length idx - length (strip_ones s))) by (simpl; lia).
    simpl. f_equal. by apply IH.
  - assert (strip_ones (n :: s) = n :: s) as ->.
    { by destruct n as [|[|n]]. }
    replace (length (i :: idx) - length (n :: s))%nat with 0%nat by (simpl; lia).
    rewrite Nat.sub_diag, drop_0. simpl replicate. rewrite app_nil_l.
    by apply zip_with_in_range.
Qed.

(** Reading a view that starts at the origin reads the tensor. *)
Lemma getitem_slices_Ok ms t view :
  wf_tensor t → slice_size ms (size t) = Ok view →
  ∃ v, getitem_slices ms t = Ok v ∧ size v = view ∧ wf_tensor v ∧
       ∀ idx, in_range view idx = true → tget v idx = tget t idx.
Proof.
  intros Hwf Hview. unfold getitem_slices. rewrite Hview. simpl.
  apply tabulate_Ok. intros idx Hidx. apply tget_wf; [done|].
  by eapply slice_size_in_range.
Qed.

(** Assigning a value of the size of the view: the view takes the
    value, the rest of the tensor stays. *)
Lemma setitem_slices_Ok ms (dst value : tensor V) view :
  wf_tensor dst → wf_tensor value →
  slice_size ms (size dst) = Ok view → size value = view →
  ∃ r, setitem_slices ms dst value = Ok r ∧ size r = size dst ∧ wf_tensor r ∧
       ∀ idx, in_range (size dst) idx = true →
         tget r idx = if in_range view idx then tget value idx else tget dst idx.
Proof.
  intros Hdst Hval Hview Hsize. unfold setitem_slices. rewrite Hview. simpl.
  rewrite Hsize, expandable_strip.
  destruct (tabulate_Ok (size dst) (λ idx,
      if in_range view idx then tget value (bcast_index view idx)
      else tget dst idx)) as (r & Hr & Hsr & Hwr & Hget).
  { intros idx Hidx. destruct (in_range view idx) eqn:Hv.
    - apply tget_wf; [done|]. rewrite Hsize. by rewrite bcast_index_id.
    - by apply tget_wf. }
  exists r. split; [done|]. split; [done|]. split; [done|].
  intros idx Hidx. rewrite Hget by done.
  destruct (in_range view idx) eqn:Hv; [|done]. by rewrite bcast_index_id.
Qed.

Lemma setitem_slices_inv ms (dst value r : tensor V) :
  setitem_slices ms dst value = Ok r →
  ∃ view, slice_size ms (size dst) = Ok view ∧ size r = size dst ∧
    ∀ idx, in_range (size dst) idx = true →
      tget r idx = if in_range view idx
                   then tget value (bcast_index (size value) idx)
                   else tget dst idx.
Proof.
  unfold setitem_slices.
  destruct (slice_size ms (size dst)) as [view|]; [|done]. simpl.
  destruct (expandable _ _); [|done].
  intros [Hs Hget]%tabulate_inv. by exists view.
Qed.

Lemma in_range_mono s s' idx :
  Forall2 le s s' → in_range s idx = true → in_range s' idx = true.
Proof.
  intros Hle. revert idx. induction Hle as [|a b s s' Hab _ IH]; intros [|i idx];
    simpl; try done.
  intros [Hi H]%andb_prop. apply Nat.ltb_lt in Hi.
  apply andb_true_intro. split; [apply Nat.ltb_lt; lia|by apply IH].
Qed.

Lemma zip_min_le o n :
  length o = length n →
  Forall2 le (zip_with Nat.min o n) o ∧ Forall2 le (zip_with Nat.min o n) n.
Proof.
  revert n. induction o as [|a o IH]; intros [|b n]; simpl; try done.
  intros [= Hlen]. destruct (IH n Hlen). split; constructor; (lia || done).
Qed.

End tensor.

End TensorProps.

(** ** Weight transplantation *)

Module TransplantProps.
Import Transplant TensorProps.

Section transplant.

Context {V : Type}.
Implicit Types (old_net new_net : @net V) (t param old_param : tensor V).

Lemma named_dict_elem old_net key t :
  named_dict old_net !! key = Some t → (key, t) ∈ old_net.
Proof.
  unfold named_dict.
  assert (∀ acc : gmap string (tensor V),
            foldl (λ d kv, <[kv.1 := kv.2]> d) acc old_net !! key = Some t →
            (key, t) ∈ old_net ∨ acc !! key = Some t) as H.
  { induction old_net as [|[k v] l IH]; intros acc; simpl; [by right|].
    intros [Hin|Hacc]%IH; [left; by right|].
    destruct (decide (k = key)) as [->|Hne].
    - rewrite lookup_insert_eq in Hacc. injection Hacc as ->. left. by left.
    - rewrite lookup_insert_ne in Hacc by done. by right. }
  intros [?|Hempty]%H; [done|]. by rewrite lookup_empty in Hempty.
Qed.

Lemma preserve_param_spec (d : gmap string (tensor V)) key param :
  wf_tensor param →
  (∀ old_param, d !! key = Some old_param → wf_tensor old_param) →
  same_rank d key param →
  ∃ result, preserve_param d key param = Ok result ∧ wf_tensor result ∧
            transplanted (d !! key) key param result.
Proof.
  intros Hwf Hold Hsame. unfold preserve_param, transplanted.
  destruct (d !! key) as [old_param|] eqn:Hd; [|by eexists].
  pose proof (Hold old_param eq_refl) as Hwfo.
  destruct (decide (size old_param = size param)) as [Heq|Hne]; [by eexists|].
  destruct (contains "norm" key) eqn:Hnorm; simpl; [by eexists|].
  unfold same_rank in Hsame. rewrite Hd in Hsame.
  pose proof (Hsame Hne Hnorm) as Hrank.
  destruct (slice_size_min (size old_param) (size param) Hrank) as [Hso Hsn].
  set (ms := zip_with Nat.min (size old_param) (size param)) in *.
  destruct (getitem_slices_Ok ms old_param ms Hwfo Hso)
    as (value & -> & Hsv & Hwv & Hvalue).
  simpl.
  destruct (setitem_slices_Ok ms param value ms Hwf Hwv Hsn Hsv)
    as (result & -> & Hsr & Hwr & Hresult).
  exists result. split; [done|]. split; [done|]. split; [done|].
  intros idx Hidx. rewrite Hresult by done. unfold in_overlap. fold ms.
  destruct (in_range ms idx) eqn:Hms; [|done]. by apply Hvalue.
Qed.

Lemma preserve_parameters_Ok old_net new_net :
  Forall (λ kp, wf_tensor kp.2) old_net →
  Forall (λ kp, wf_tensor kp.2) new_net →
  Forall (λ kp, same_rank (named_dict old_net) kp.1 kp.2) new_net →
  ∃ result, preserve_parameters old_net new_net = Ok result ∧
    ∀ i key param, new_net !! i = Some (key, param) →
      ∃ param', result !! i = Some (key, param') ∧
        preserve_param (named_dict old_net) key param = Ok param' ∧
        transplanted (named_dict old_net !! key) key param param'.
Proof.
  rewrite !Forall_forall. intros Hold Hnew Hrank. unfold preserve_parameters.
  set (f := λ kp : string * tensor V,
         p ← preserve_param (named_dict old_net) kp.1 kp.2; Ok (kp.1, p)).
  assert (∀ key param, (key, param) ∈ new_net →
            ∃ result, preserve_param (named_dict old_net) key param = Ok result ∧
              transplanted (named_dict old_net !! key) key param result) as Hf.
  { intros key param Hin.
    destruct (preserve_param_spec (named_dict old_net) key param)
      as (result & Hres & _ & Htrans).
    - by apply (Hnew (key, param)).
    - intros old_param Hlook.
      by apply (Hold (key, old_param)), named_dict_elem.
    - by apply (Hrank (key, param)).
    - by exists result. }
  destruct (res_mapM_total f new_net) as [result Hresult].
  { apply Forall_forall. intros [key param] Hin.
    destruct (Hf key param Hin) as (r & Hr & _). unfold f. simpl.
    rewrite Hr. by eexists. }
  exists result. split; [done|].
  intros i key param Hi.
  destruct (res_mapM_lookup _ _ _ _ _ Hresult Hi) as ([key' param'] & Hlook & Hfi).
  destruct (Hf key param) as (r & Hr & Htrans); [by eapply list_elem_of_lookup_2|].
  unfold f in Hfi. simpl in Hfi. rewrite Hr in Hfi. injection Hfi as <- <-.
  by exists r.
Qed.

Lemma slice_size_self s : slice_size (zip_with Nat.min s s) s = Ok s.
Proof.
  induction s as [|n s IH]; [done|]. simpl. rewrite IH. simpl.
  do 2 f_equal. lia.
Qed.

(** Where only the first two dimensions changed, the shrinking copy
    takes the same view as the growing one. *)
Lemma shrink_preserve_param_eq (d : gmap string (tensor V)) key param :
  same_rank d key param → same_tail d key param →
  shrink_preserve_param d key param = preserve_param d key param.
Proof.
  intros Hrank Htail. unfold shrink_preserve_param, preserve_param.
  destruct (d !! key) as [old_param|] eqn:Hd; [|done].
  destruct (decide (size old_param = size param)) as [Heq|Hne]; [done|].
  destruct (contains "norm" key) eqn:Hnorm; simpl; [done|].
  unfold same_rank, same_tail in *. rewrite Hd in Hrank, Htail.
  specialize (Hrank Hne Hnorm). specialize (Htail Hne Hnorm).
  unfold getitem_slices, setitem_slices.
  destruct (size old_param) as [|o0 [|o1 orest]] eqn:Ho,
           (size param) as [|n0 [|n1 nrest]] eqn:Hn; simpl in *; try done.
  rewrite !drop_0 in Htail. subst nrest. by rewrite !slice_size_self.
Qed.

(** A slice of the old parameter assigned to the same slice of the new
    one, broadcast or not, puts the old values wherever both views
    reach. *)
Lemma copy_slices_overlap ms old_param param p2 vo vn idx :
  wf_tensor old_param →
  slice_size ms (size old_param) = Ok vo →
  slice_size ms (size param) = Ok vn →
  getitem_slices ms old_param ≫= setitem_slices ms param = Ok p2 →
  in_range vo idx = true → in_range vn idx = true →
  tget p2 idx = tget old_param idx.
Proof.
  intros Hwfo Hvo Hvn Hp2 Hio Hin.
  destruct (getitem_slices_Ok ms old_param vo Hwfo Hvo)
    as (value & Hvalue & Hsv & _ & Hget).
  rewrite Hvalue in Hp2. simpl in Hp2.
  apply setitem_slices_inv in Hp2 as (view & Hview & _ & Hp2).
  rewrite Hvn in Hview. injection Hview as <-.
  rewrite Hp2 by by eapply slice_size_in_range.
  rewrite Hin, Hsv, bcast_index_id by done. by apply Hget.
Qed.

(** Whenever the shrinking copy returns, it has put the old values on
    the overlap, as the growing copy does. *)
Lemma shrink_preserve_param_overlap (d : gmap string (tensor V)) key param
    old_param p1 p2 idx :
  wf_tensor param → wf_tensor old_param → same_rank d key param →
  d !! key = Some old_param →
  preserve_param d key param = Ok p1 →
  shrink_preserve_param d key param = Ok p2 →
  in_overlap (size old_param) (size param) idx = true →
  tget p2 idx = tget p1 idx.
Proof.
  intros Hwf Hwfo Hrank Hd Hp1 Hp2 Hidx.
  destruct (preserve_param_spec d key param Hwf) as (p1' & Hp1' & _ & Htrans);
    [by intros o [= <-]%(eq_trans (eq_sym Hd))|done|].
  rewrite Hp1 in Hp1'. injection Hp1' as <-.
  unfold transplanted in Htrans. unfold shrink_preserve_param in Hp2.
  unfold same_rank in Hrank. rewrite Hd in Htrans, Hp2, Hrank.
  destruct (decide (size old_param = size param)) as [Heq|Hne].
  { injection Hp2 as <-. by rewrite Htrans. }
  destruct (contains "norm" key) eqn:Hnorm; simpl in Hp2.
  { injection Hp2 as <-. by rewrite Htrans. }
  specialize (Hrank Hne eq_refl). destruct Htrans as [_ Htrans].
  unfold in_overlap in *.
  destruct (zip_min_le _ _ Hrank) as [Hleo Hlen].
  rewrite Htrans, Hidx by by eapply in_range_mono.
  destruct (size old_param) as [|o0 [|o1 orest]] eqn:Ho,
           (size param) as [|n0 [|n1 nrest]] eqn:Hn; simpl in Hrank; try done.
  - simpl in Hp2.
    eapply (copy_slices_overlap [(o0 `min` n0)%nat] old_param param p2);
      [done|by rewrite Ho|by rewrite Hn|done| |].
    + eapply in_range_mono; [|exact Hidx]. repeat constructor. simpl. lia.
    + eapply in_range_mono; [|exact Hidx]. repeat constructor. simpl. lia.
  - simpl in Hp2. injection Hrank as Hrank.
    destruct (zip_min_le orest nrest Hrank) as [Hro Hrn].
    eapply (copy_slices_overlap [(o0 `min` n0)%nat; (o1 `min` n1)%nat]
              old_param param p2);
      [done|by rewrite Ho|by rewrite Hn|done| |].
    + eapply in_range_mono; [|exact Hidx].
      simpl. constructor; [lia|]. constructor; [lia|done].
    + eapply in_range_mono; [|exact Hidx].
      simpl. constructor; [lia|]. constructor; [lia|done].
Qed.

(** C1, as amended. Let every shared parameter whose shape changed,
    outside normalisation layers, have the same number of dimensions in
    both networks. Then [preserve_parameters] returns the new network
    in which every parameter that the old network has too is: the old
    parameter when the sizes are equal; for different sizes and a name
    without "norm", the new parameter with the old values on the
    overlap, the first [min(old_size_d, new_size_d)] indices of every
    dimension [d], and its own values elsewhere; for different sizes
    and a name with "norm", the new parameter as it was. Parameters the
    old network lacks stay as they were. *)
Theorem preserve_parameters_transplants old_net new_net :
  Forall (λ kp, wf_tensor kp.2) old_net →
  Forall (λ kp, wf_tensor kp.2) new_net →
  Forall (λ kp, same_rank (named_dict old_net) kp.1 kp.2) new_net →
  ∃ result, preserve_parameters old_net new_net = Ok result ∧
    length result = length new_net ∧
    ∀ i key param, new_net !! i = Some (key, param) →
      ∃ param', result !! i = Some (key, param') ∧
        (named_dict old_net !! key = None → param' = param) ∧
        ∀ old_param, named_dict old_net !! key = Some old_param →
          (size old_param = size param → param' = old_param) ∧
          (size old_param ≠ size param → contains "norm" key = false →
             size param' = size param ∧
             ∀ idx, in_range (size param) idx = true →
               tget param' idx =
                 if in_overlap (size old_param) (size param) idx
                 then tget old_param idx else tget param idx) ∧
          (size old_param ≠ size param → contains "norm" key = true →
             param' = param).
Proof.
  intros Hold Hnew Hrank.
  destruct (preserve_parameters_Ok old_net new_net Hold Hnew Hrank)
    as (result & Hres & Hparams).
  exists result. split; [done|]. split.
  { by apply res_mapM_length in Hres. }
  intros i key param Hi.
  destruct (Hparams i key param Hi) as (param' & Hlook & _ & Htrans).
  exists param'. split; [done|]. unfold transplanted in Htrans.
  destruct (named_dict old_net !! key) as [old_param|]; [|done].
  split; [done|]. intros ? [= <-].
  destruct (decide (size old_param = size param)) as [Heq|Hne].
  { split_and!; done. }
  destruct (contains "norm" key); split_and!; (done || by intros).
Qed.

(** C2, as amended. Let the shared parameters whose shape changed,
    outside normalisation layers, have the same number of dimensions in
    both networks. Then whenever [shrink_preserve_parameters] returns,
    it and [preserve_parameters] leave the same values on the overlap
    of every shared parameter; and it does return, with the very
    network [preserve_parameters] returns, when those parameters
    changed in their first two dimensions only. *)
Theorem shrink_agrees_with_preserve old_net new_net :
  Forall (λ kp, wf_tensor kp.2) old_net →
  Forall (λ kp, wf_tensor kp.2) new_net →
  Forall (λ kp, same_rank (named_dict old_net) kp.1 kp.2) new_net →
  ∃ grown, preserve_parameters old_net new_net = Ok grown ∧
    (Forall (λ kp, same_tail (named_dict old_net) kp.1 kp.2) new_net →
       shrink_preserve_parameters old_net new_net = Ok grown) ∧
    (∀ shrunk, shrink_preserve_parameters old_net new_net = Ok shrunk →
       ∀ i key param old_param,
         new_net !! i = Some (key, param) →
         named_dict old_net !! key = Some old_param →
         ∃ p1 p2, grown !! i = Some (key, p1) ∧ shrunk !! i = Some (key, p2) ∧
           ∀ idx, in_overlap (size old_param) (size param) idx = true →
             tget p2 idx = tget p1 idx).
Proof.
  intros Hold Hnew Hrank.
  destruct (preserve_parameters_Ok old_net new_net Hold Hnew Hrank)
    as (grown & Hgrown & Hparams).
  exists grown. split; [done|]. split.
  - intros Htail. rewrite <-Hgrown.
    unfold shrink_preserve_parameters, preserve_parameters.
    apply res_mapM_ext. rewrite Forall_forall in *.
    intros [key param] Hin. simpl.
    rewrite shrink_preserve_param_eq; [done| |].
    + by apply (Hrank (key, param)).
    + by apply (Htail (key, param)).
  - intros shrunk Hshrunk i key param old_param Hi Hd.
    destruct (Hparams i key param Hi) as (p1 & Hp1 & Hpp1 & _).
    destruct (res_mapM_lookup _ _ _ _ _ Hshrunk Hi) as ([key' p2] & Hp2 & Hpp2).
    simpl in Hpp2.
    destruct (shrink_preserve_param _ key param) as [p2'|] eqn:Hs; [|done].
    simpl in Hpp2. injection Hpp2 as <- <-.
    exists p1, p2'. split; [done|]. split; [done|].
    intros idx Hidx. rewrite Forall_forall in *.
    eapply (shrink_preserve_param_overlap (named_dict old_net) key param old_param);
      try done.
    + apply (Hnew (key, param)). by eapply list_elem_of_lookup_2.
    + by apply (Hold (key, old_param)), named_dict_elem.
    + apply (Hrank (key, param)). by eapply list_elem_of_lookup_2.
Qed.

End transplant.

Import Samples MoreSamples.

Lemma nets0_ok :
  Forall (λ kp, wf_tensor kp.2) old_net0 ∧
  Forall (λ kp, wf_tensor kp.2) new_net0 ∧
  Forall (λ kp, same_rank (named_dict old_net0) kp.1 kp.2) new_net0.
Proof. split_and!; apply (bool_decide_unpack _); vm_compute; exact I. Qed.

Lemma preserve_parameters_transplants_witness :
  ∃ result, preserve_parameters old_net0 new_net0 = Ok result ∧
    length result = length new_net0 ∧
    ∀ i key param, new_net0 !! i = Some (key, param) →
      ∃ param', result !! i = Some (key, param') ∧
        (named_dict old_net0 !! key = None → param' = param) ∧
        ∀ old_param, named_dict old_net0 !! key = Some old_param →
          (size old_param = size param → param' = old_param) ∧
          (size old_param ≠ size param → contains "norm" key = false →
             size param' = size param ∧
             ∀ idx, in_range (size param) idx = true →
               tget param' idx =
                 if in_overlap (size old_param) (size param) idx
                 then tget old_param idx else tget param idx) ∧
          (size old_param ≠ size param → contains "norm" key = true →
             param' = param).
Proof.
  apply (preserve_parameters_transplants old_net0 new_net0); apply nets0_ok.
Defined.

Lemma shrink_agrees_with_preserve_witness :
  ∃ grown, preserve_parameters old_net0 new_net0 = Ok grown ∧
    (Forall (λ kp, same_tail (named_dict old_net0) kp.1 kp.2) new_net0 →
       shrink_preserve_parameters old_net0 new_net0 = Ok grown) ∧
    (∀ shrunk, shrink_preserve_parameters old_net0 new_net0 = Ok shrunk →
       ∀ i key param old_param,
         new_net0 !! i = Some (key, param) →
         named_dict old_net0 !! key = Some old_param →
         ∃ p1 p2, grown !! i = Some (key, p1) ∧ shrunk !! i = Some (key, p2) ∧
           ∀ idx, in_overlap (size old_param) (size param) idx = true →
             tget p2 idx = tget p1 idx).
Proof.
  apply (shrink_agrees_with_preserve old_net0 new_net0); apply nets0_ok.
Defined.

(** On the sample networks: the weight keeps its 2 x 2 overlap, the bias
    its first two entries, the normalisation layer and the new
    parameter stay as initialised; both copies agree. *)
Example preserve_parameters_sample :
  preserve_parameters old_net0 new_net0 =
    Ok [ ("fc.weight", {| size := [3; 2]%nat; data := [1; 2; 4; 5; 50; 60] |});
         ("fc.bias", {| size := [3]%nat; data := [7; 8; 90] |});
         ("norm.weight", {| size := [3]%nat; data := [0; 0; 0] |});
         ("head.bias", {| size := []; data := [5] |}) ] ∧
  shrink_preserve_parameters old_net0 new_net0 = preserve_parameters old_net0 new_net0.
Proof. split; vm_compute; reflexivity. Qed.

(** A weight that loses a dimension and a weight that gains one; the
    parameters are well-formed. For the first [preserve_parameters]
    raises: the slice of the old weight has shape 2 x 3 and does not
    fit the slice of the new weight, of shape 2. For the second it
    returns, with the old vector written into each of the first three
    rows of the new matrix: the entry at row 1, column 0, outside the
    overlap, is neither the freshly initialised 40 nor an entry of the
    old weight at that index, which has none. *)
Lemma preserve_parameters_rank_mismatch :
  (Forall (λ kp, wf_tensor kp.2) old_matrix ∧
   Forall (λ kp, wf_tensor kp.2) new_vector ∧
   ¬ Forall (λ kp, same_rank (named_dict old_matrix) kp.1 kp.2) new_vector ∧
   preserve_parameters old_matrix new_vector = Raise RuntimeError) ∧
  (Forall (λ kp, wf_tensor kp.2) old_vector ∧
   Forall (λ kp, wf_tensor kp.2) new_matrix ∧
   ¬ Forall (λ kp, same_rank (named_dict old_vector) kp.1 kp.2) new_matrix ∧
   preserve_parameters old_vector new_matrix =
     Ok [ ("w", {| size := [4; 3]%nat;
                   data := [1; 2; 3; 1; 2; 3; 1; 2; 3; 100; 110; 120] |}) ] ∧
   in_overlap [3]%nat [4; 3]%nat [1; 0]%nat = false ∧
   tget {| size := [4; 3]%nat;
           data := [1; 2; 3; 1; 2; 3; 1; 2; 3; 100; 110; 120] |} [1; 0]%nat
     = Ok 1 ∧
   tget {| size := [4; 3]%nat;
           data := [10; 20; 30; 40; 50; 60; 70; 80; 90; 100; 110; 120] |}
        [1; 0]%nat
     = Ok 40 ∧
   tget {| size := [3]%nat; data := [1; 2; 3] |} [1; 0]%nat
     = Raise IndexError).
Proof.
  split; split_and!.
  - apply (bool_decide_unpack _); vm_compute; exact I.
  - apply (bool_decide_unpack _); vm_compute; exact I.
  - apply (bool_decide_unpack _); vm_compute; exact I.
  - vm_compute; reflexivity.
  - apply (bool_decide_unpack _); vm_compute; exact I.
  - apply (bool_decide_unpack _); vm_compute; exact I.
  - apply (bool_decide_unpack _); vm_compute; exact I.
  - vm_compute; reflexivity.
  - reflexivity.
  - reflexivity.
  - reflexivity.
  - reflexivity.
Qed.

(** A kernel that shrinks in its third dimension: the parameters are
    well-formed and of equal rank, [preserve_parameters] copies the
    overlap, and [shrink_preserve_parameters] raises, the old slice not
    fitting the new one. *)
Lemma shrink_raises_on_third_dimension :
  Forall (λ kp, wf_tensor kp.2) old_conv ∧
  Forall (λ kp, wf_tensor kp.2) new_conv ∧
  Forall (λ kp, same_rank (named_dict old_conv) kp.1 kp.2) new_conv ∧
  preserve_parameters old_conv new_conv =
    Ok [ ("conv.weight", {| size := [1; 1; 2]%nat; data := [1; 2] |}) ] ∧
  shrink_preserve_parameters old_conv new_conv = Raise RuntimeError.
Proof.
  split_and!; try (apply (bool_decide_unpack _); vm_compute; exact I);
    vm_compute; reflexivity.
Qed.

End TransplantProps.

(** * Further properties *)

(** ** Tournament selection *)

Module TournamentMore.
Import Tournament TournamentProps.

Lemma clone_same {W} (ind : individual W) wrap : clone ind None wrap = ind.
Proof. by destruct ind. Qed.

Section more.

Context {W : Type} {np : Numpy} {laws : NumpyLaws np}.
Implicit Types (self : TournamentSelection) (population : list (individual W)).

(** The positions in scoring order, and the rank array as its inverse. *)
Lemma rank_of_inverse self population :
  let order := argsort_float (map (score self) population) in
  order ≡ₚ seq 0 (length population) ∧
  rank_of self population ≡ₚ seq 0 (length population) ∧
  StronglySorted Qcle (take_idx (map (score self) population) order) ∧
  Forall (λ a, a < length (map (score self) population))%nat order ∧
  ∀ a r, rank_of self population !! a = Some r → order !! r = Some a.
Proof.
  intros order.
  pose proof (argsort_float_spec (map (score self) population)) as Hp1.
  fold order in Hp1.
  assert (length order = length population) as Hlen.
  { rewrite (is_argsort_length _ _ _ Hp1). apply length_map. }
  assert (order ≡ₚ seq 0 (length order)) as Hperm.
  { rewrite Hlen. destruct Hp1 as [Hp1 _]. etrans; [exact Hp1|].
    by rewrite length_map. }
  pose proof (argsort_int_spec order) as Hrank.
  fold (rank_of self population) in Hrank.
  split; [by rewrite <-Hlen|]. split.
  { rewrite <-Hlen. apply Hrank. }
  split; [apply Hp1|]. split; [by eapply is_argsort_lt|].
  intros a r Ha.
  assert (a < length order)%nat as Halt.
  { rewrite Hlen, <-(rank_of_length self population). by eapply lookup_lt_Some. }
  destruct (argsort_inverse order _ Hperm Hrank a Halt) as (r' & Hr' & Ho).
  unfold rank_of in Ha. fold order in Ha. rewrite Ha in Hr'.
  by injection Hr' as <-.
Qed.

(** X1. The rank array of [_elitism] is a permutation of the positions
    [0 .. n-1] that follows the scores: an individual with a strictly
    smaller score has a strictly smaller rank, whatever order the
    sorting routine gives to equal scores. *)
Theorem rank_of_follows_score self population :
  rank_of self population ≡ₚ seq 0 (length population) ∧
  ∀ a b ind_a ind_b ra rb,
    population !! a = Some ind_a → population !! b = Some ind_b →
    rank_of self population !! a = Some ra →
    rank_of self population !! b = Some rb →
    (score self ind_a < score self ind_b)%Qc → (ra < rb)%nat.
Proof.
  destruct (rank_of_inverse self population)
    as (_ & Hperm & Hsorted & Hlt & Hinv).
  split; [done|].
  intros a b ind_a ind_b ra rb Ha Hb Hra Hrb Hscore.
  apply Hinv in Hra, Hrb.
  destruct (decide (ra < rb)%nat) as [|Hge]; [done|].
  exfalso. apply Qclt_not_le in Hscore. apply Hscore.
  eapply (StronglySorted_lookup_le Qcle _ rb ra); [done|lia| |].
  - rewrite take_idx_lookup by done. rewrite Hrb. simpl.
    by rewrite list_lookup_fmap, Hb.
  - rewrite take_idx_lookup by done. rewrite Hra. simpl.
    by rewrite list_lookup_fmap, Ha.
Qed.

(** X2. Selection makes no individual up: the elite is a member of the
    input population, and every member of the new population has the
    fitness history and the owned state of a member of the input. *)
Theorem select_only_copies ts el ps ev self population g :
  __init__ ts el ps ev = Ok self → population ≠ [] →
  ∃ elite new_population g',
    select self population g = (Ok (elite, new_population), g') ∧
    elite ∈ population ∧
    ∀ ind, ind ∈ new_population →
      ∃ parent, parent ∈ population ∧
        fitness ind = fitness parent ∧ owned ind = owned parent.
Proof.
  intros Hinit Hne.
  destruct (select_spec _ _ _ _ _ population g Hinit Hne)
    as (e & best & max_id & offs & g' & Hsel & He & _ & _ & _ & _ & Hoffs).
  simpl in Hsel. rewrite !clone_same in Hsel.
  eexists _, _, g'. split; [exact Hsel|].
  assert (best ∈ population) as Hbest by by eapply list_elem_of_lookup_2.
  split; [done|].
  intros ind [Hin|Hin]%elem_of_app.
  - exists best. split; [done|].
    destruct (truthy (elitism self)); [|by apply elem_of_nil in Hin].
    by apply list_elem_of_singleton in Hin as ->.
  - apply list_elem_of_lookup_1 in Hin as [k Hk].
    destruct (Hoffs k ind Hk) as (_ & parent & Hparent & ->). by exists parent.
Qed.

(** X3. The indices of the new population are pairwise distinct, also
    when the indices of the input population are not: the elite's copy
    keeps an index of the input, every offspring gets one above them
    all. *)
Theorem select_indices_distinct ts el ps ev self population g :
  __init__ ts el ps ev = Ok self → population ≠ [] →
  ∃ elite new_population g',
    select self population g = (Ok (elite, new_population), g') ∧
    NoDup (index <$> new_population).
Proof.
  intros Hinit Hne.
  destruct (select_spec _ _ _ _ _ population g Hinit Hne)
    as (e & best & max_id & offs & g' & Hsel & He & _ & _ & Hmax & _ & Hoffs).
  simpl in Hsel. rewrite !clone_same in Hsel.
  eexists _, _, g'. split; [exact Hsel|].
  destruct (py_max_spec (map index population)) as (m & Hm & _ & Hall).
  { by destruct population. }
  rewrite Hmax in Hm. injection Hm as <-. rewrite Forall_forall in Hall.
  assert (index best ≤ max_id) as Hbest.
  { apply Hall, list_elem_of_fmap. exists best. split; [done|].
    by eapply list_elem_of_lookup_2. }
  assert (∀ k ind, offs !! k = Some ind → index ind = max_id + (Z.of_nat k + 1))
    as Hidx by (intros k ind Hk; by apply Hoffs).
  rewrite fmap_app. apply NoDup_app. split_and!.
  - destruct (truthy (elitism self)); simpl; [|constructor].
    apply NoDup_singleton.
  - intros x Hx Hx'. apply list_elem_of_fmap in Hx' as (ind & -> & Hin).
    apply list_elem_of_lookup_1 in Hin as [k Hk]. rewrite (Hidx _ _ Hk) in Hx.
    destruct (truthy (elitism self)); simpl in Hx; [|by apply elem_of_nil in Hx].
    apply list_elem_of_singleton in Hx. lia.
  - apply NoDup_alt. intros i j x. rewrite !list_lookup_fmap.
    destruct (offs !! i) as [a|] eqn:Ha; [|done].
    destruct (offs !! j) as [b|] eqn:Hb; [|done]. simpl.
    intros [= <-] [= Hab]. rewrite (Hidx _ _ Ha), (Hidx _ _ Hb) in Hab. lia.
Qed.

(** X4. On an empty population [select] raises [ValueError], from the
    [max] over no index, before any random number is drawn. *)
Theorem select_empty self g :
  select (W := W) self [] g = (Raise ValueError, g).
Proof. reflexivity. Qed.

(** X5. An individual with no more than [eval_loop] fitness entries is
    scored by the mean of all of them: the slice of the last
    [eval_loop] entries is then the whole history. *)
Theorem score_short_history self (ind : individual W) :
  0 < eval_loop self →
  Z.of_nat (length (fitness ind)) ≤ eval_loop self →
  score self ind = np_mean (fitness ind).
Proof.
  intros Hpos Hle. unfold score, slice_from.
  destruct (Z.ltb_spec (- eval_loop self) 0) as [_|?]; [|lia].
  replace (length (fitness ind) - Z.to_nat (- - eval_loop self))%nat
    with 0%nat by lia.
  done.
Qed.

(** X6. When one individual scores strictly above all others, the
    elite is that individual, whatever the sorting routine does with
    ties and whatever the random draws are. *)
Theorem select_strict_best ts el ps ev self population g e best :
  __init__ ts el ps ev = Ok self →
  population !! e = Some best →
  (∀ j ind, population !! j = Some ind → j ≠ e →
     (score self ind < score self best)%Qc) →
  ∃ new_population g',
    select self population g = (Ok (best, new_population), g').
Proof.
  intros Hinit He Hstrict.
  assert (population ≠ []) as Hne by (intros ->; done).
  destruct (select_spec _ _ _ _ _ population g Hinit Hne)
    as (e' & best' & max_id & offs & g' & Hsel & He' & _ & Hbest & _).
  simpl in Hsel. rewrite !clone_same in Hsel.
  destruct (decide (e' = e)) as [->|Hdiff].
  - rewrite He in He'. injection He' as <-. by eexists _, g'.
  - exfalso. pose proof (Hstrict e' best' He' Hdiff) as Hlt.
    apply Qclt_not_le in Hlt. apply Hlt, Hbest.
    by eapply list_elem_of_lookup_2.
Qed.

End more.

Import Samples.

Lemma rank_of_follows_score_witness :
  rank_of (np := RefNumpy.numpy) selection0 population0
    ≡ₚ seq 0 (length population0) ∧
  ∀ a b ind_a ind_b ra rb,
    population0 !! a = Some ind_a → population0 !! b = Some ind_b →
    rank_of (np := RefNumpy.numpy) selection0 population0 !! a = Some ra →
    rank_of (np := RefNumpy.numpy) selection0 population0 !! b = Some rb →
    (score selection0 ind_a < score selection0 ind_b)%Qc → (ra < rb)%nat.
Proof.
  apply (rank_of_follows_score (np := RefNumpy.numpy) selection0 population0).
Defined.

Lemma select_only_copies_witness :
  ∃ elite new_population g',
    select (np := RefNumpy.numpy) selection0 population0 42
      = (Ok (elite, new_population), g') ∧
    elite ∈ population0 ∧
    ∀ ind, ind ∈ new_population →
      ∃ parent, parent ∈ population0 ∧
        fitness ind = fitness parent ∧ owned ind = owned parent.
Proof.
  apply (select_only_copies (np := RefNumpy.numpy) 2 (PyBool true) 4 2).
  - reflexivity.
  - discriminate.
Defined.

Lemma select_indices_distinct_witness :
  ∃ elite new_population g',
    select (np := RefNumpy.numpy) selection0 population0 42
      = (Ok (elite, new_population), g') ∧
    NoDup (index <$> new_population).
Proof.
  apply (select_indices_distinct (np := RefNumpy.numpy) 2 (PyBool true) 4 2).
  - reflexivity.
  - discriminate.
Defined.

Lemma score_short_history_witness :
  score selection0 {| index := 7; fitness := [Qc_of_Z 3; Qc_of_Z 9]; owned := () |}
    = np_mean [Qc_of_Z 3; Qc_of_Z 9].
Proof.
  apply (score_short_history selection0
           {| index := 7; fitness := [Qc_of_Z 3; Qc_of_Z 9]; owned := () |}).
  - reflexivity.
  - simpl. lia.
Defined.

Lemma select_strict_best_witness :
  ∃ new_population g',
    select (np := RefNumpy.numpy) selection0 population0 42 =
      (Ok ({| index := 7; fitness := [Qc_of_Z 3; Qc_of_Z 9]; owned := () |},
           new_population), g').
Proof.
  apply (select_strict_best (np := RefNumpy.numpy) 2 (PyBool true) 4 2
           selection0 population0 42 1%nat).
  - reflexivity.
  - reflexivity.
  - intros [|[|[|j]]] ind Hj Hne; try done;
      injection Hj as <-; vm_compute; reflexivity.
Defined.

End TournamentMore.

(** ** Mutation methods *)

Module EvolvableMore.
Import Evolvable EvolvableProps.

Lemma elem_of_entries t attrs k m :
  (k, m) ∈ entries t attrs ↔ (k, Method m) ∈ attrs ∧ _mutation_type m = t.
Proof.
  unfold entries. rewrite list_elem_of_omap. split.
  - intros ([k' a] & Hin & Ha). simpl in Ha. destruct a as [m'|]; [|done].
    case_decide; [|done]. by injection Ha as -> ->.
  - intros [Hin Ht]. exists (k, Method m). split; [done|]. simpl.
    by rewrite decide_True.
Qed.

Lemma init_registries class_vars name :
  NoDup class_vars.*1 →
  _layer_mutation_methods (__init__ class_vars name) = entries LAYER class_vars ∧
  _node_mutation_methods (__init__ class_vars name) = entries NODE class_vars ∧
  _mutation_methods (__init__ class_vars name) =
    dict_values (entries LAYER class_vars) ++ dict_values (entries NODE class_vars).
Proof.
  intros Hnd. unfold __init__.
  by rewrite populate_spec by (done || (intros; simpl; split; apply not_elem_of_nil)).
Qed.

Lemma NoDup_keys_lookup {A B} (l : list (A * B)) k x y :
  NoDup l.*1 → (k, x) ∈ l → (k, y) ∈ l → x = y.
Proof.
  induction l as [|[k' z] l IH]; csimpl; [by intros _ ?%elem_of_nil|].
  rewrite NoDup_cons. intros [Hk Hnd] Hx Hy.
  apply elem_of_cons in Hx as [Hx|Hx], Hy as [Hy|Hy].
  - congruence.
  - injection Hx as -> ->. exfalso. apply Hk, list_elem_of_fmap. by exists (k', y).
  - injection Hy as -> ->. exfalso. apply Hk, list_elem_of_fmap. by exists (k', x).
  - by apply IH.
Qed.

(** X7. The two registries split the registered methods of a class by
    type: a method sits in [_layer_mutation_methods], under its
    attribute name, exactly when the class registers it with type
    LAYER, likewise for NODE, and no name is in both. *)
Theorem registries_partition class_vars name :
  NoDup class_vars.*1 →
  let self := __init__ class_vars name in
  (∀ k m, (k, m) ∈ _layer_mutation_methods self ↔
          (k, Method m) ∈ class_vars ∧ _mutation_type m = LAYER) ∧
  (∀ k m, (k, m) ∈ _node_mutation_methods self ↔
          (k, Method m) ∈ class_vars ∧ _mutation_type m = NODE) ∧
  (∀ k, k ∈ (_layer_mutation_methods self).*1 →
        k ∉ (_node_mutation_methods self).*1).
Proof.
  intros Hnd self. destruct (init_registries class_vars name Hnd) as (HL & HN & _).
  unfold self. rewrite HL, HN. split_and!.
  - intros k m. apply elem_of_entries.
  - intros k m. apply elem_of_entries.
  - intros k ([k1 m1] & -> & H1)%list_elem_of_fmap ([k2 m2] & Hk & H2)%list_elem_of_fmap.
    simpl in Hk. subst k2.
    apply elem_of_entries in H1 as [H1 Ht1], H2 as [H2 Ht2].
    pose proof (NoDup_keys_lookup _ _ _ _ Hnd H1 H2) as Heq.
    injection Heq as ->. congruence.
Qed.






(** X9. For a class whose registered methods sit under their own,
    distinct names, [get_mutation_methods] is the dictionary of exactly
    these methods by name: its keys are distinct, and it holds a
    method [m] under [k] exactly when the class registers [m] as [k]. *)
Theorem get_mutation_methods_by_name class_vars name :
  NoDup class_vars.*1 → own_names class_vars →
  let self := __init__ class_vars name in
  NoDup (get_mutation_methods self).*1 ∧
  ∀ k m, (k, m) ∈ get_mutation_methods self ↔ (k, Method m) ∈ class_vars.
Proof.
  intros Hnd Hown self.
  destruct (init_registries class_vars name Hnd) as (_ & _ & HM).
  destruct (registered_names class_vars Hnd Hown) as [Hnames _].
  assert (get_mutation_methods self =
          (λ m, (__name__ m, m)) <$>
            (of_type LAYER (registered class_vars)
             ++ of_type NODE (registered class_vars))) as Heq.
  { unfold get_mutation_methods, self. rewrite HM, !entries_values.
    rewrite foldl_dict_set; [done| |intros; apply not_elem_of_nil].
    by rewrite of_type_split. }
  rewrite Heq. split.
  - rewrite <-list_fmap_compose.
    change (fst ∘ (λ m, (__name__ m, m))) with __name__.
    by rewrite of_type_split.
  - intros k m. rewrite list_elem_of_fmap. setoid_rewrite of_type_split.
    unfold registered. setoid_rewrite list_elem_of_omap.
    unfold own_names in Hown. rewrite Forall_forall in Hown. split.
    + intros (m' & [= -> ->] & [k' a] & Hin & Ha). simpl in Ha.
      destruct a as [m''|]; [|done]. injection Ha as ->.
      pose proof (Hown _ Hin) as Hk. simpl in Hk. by rewrite Hk.
    + intros Hin. pose proof (Hown _ Hin) as Hk. simpl in Hk.
      exists m. split; [by rewrite Hk|]. by exists (k, Method m).
Qed.




Import Samples MoreSamples.

Lemma registries_partition_witness :
  let self := __init__ mlp_vars "mlp" in
  (∀ k m, (k, m) ∈ _layer_mutation_methods self ↔
          (k, Method m) ∈ mlp_vars ∧ _mutation_type m = LAYER) ∧
  (∀ k m, (k, m) ∈ _node_mutation_methods self ↔
          (k, Method m) ∈ mlp_vars ∧ _mutation_type m = NODE) ∧
  (∀ k, k ∈ (_layer_mutation_methods self).*1 →
        k ∉ (_node_mutation_methods self).*1).
Proof.
  apply (registries_partition mlp_vars "mlp").
  apply (bool_decide_unpack _); vm_compute; exact I.
Defined.


(** On the class with the aliased method: three registered methods, two
    probabilities, which sum to 9/10. *)
Example aliased_probs_sample :
  get_mutation_probs (__init__ aliased_vars "net") (Q2Qc (1 # 5))
    = Ok [Q2Qc (1 # 10); Q2Qc (4 # 5)].
Proof. Qc_list_eq. Qed.

Lemma get_mutation_methods_by_name_witness :
  let self := __init__ mlp_vars "mlp" in
  NoDup (get_mutation_methods self).*1 ∧
  ∀ k m, (k, m) ∈ get_mutation_methods self ↔ (k, Method m) ∈ mlp_vars.
Proof.
  apply (get_mutation_methods_by_name mlp_vars "mlp"); apply mlp_vars_ok.
Defined.


End EvolvableMore.

(** ** Weight transplantation *)

Module TransplantMore.
Import Transplant TensorProps TransplantProps.

Lemma res_mapM_Forall2 {A B} (f : A → res B) l k :
  res_mapM f l = Ok k → Forall2 (λ x y, f x = Ok y) l k.
Proof.
  revert k. induction l as [|x l IH]; intros k; simpl.
  - intros [= <-]. constructor.
  - destruct (f x) as [y|] eqn:Hy; [|done]. simpl.
    destruct (res_mapM f l) as [k'|]; [|done]. simpl.
    intros [= <-]. constructor; [done|by apply IH].
Qed.

Lemma res_mapM_id {A} (f : A → res A) l :
  Forall (λ x, f x = Ok x) l → res_mapM f l = Ok l.
Proof.
  intros H. rewrite (res_mapM_Ok f id) by done. by rewrite list_fmap_id.
Qed.

Lemma strip_ones_keep pre a suf :
  a ≠ 1%nat → strip_ones (pre ++ a :: suf) = strip_ones pre ++ a :: suf.
Proof.
  intros Ha. induction pre as [|x pre IH]; simpl.
  - by destruct a as [|[|a]].
  - destruct x as [|[|x]]; simpl; [done| |done]. exact IH.
Qed.

Lemma expandable_rev_mismatch l l' a b r r' :
  length l = length l' → a ≠ b → a ≠ 1%nat →
  expandable_rev (l ++ a :: r) (l' ++ b :: r') = false.
Proof.
  intros Hlen Hab Ha. revert l' Hlen.
  induction l as [|x l IH]; intros [|y l']; simpl; try done.
  - intros _. destruct (Nat.eqb_spec a b), (Nat.eqb_spec a 1); done.
  - intros [= Hlen]. rewrite (IH l' Hlen). apply andb_false_r.
Qed.

(** A value with a dimension that is neither one nor the dimension of
    the destination at the same place does not expand. *)
Lemma expandable_mismatch s d j a b :
  length s = length d → s !! j = Some a → d !! j = Some b →
  a ≠ b → a ≠ 1%nat → expandable (strip_ones s) d = false.
Proof.
  intros Hlen Hs Hd Hab Ha.
  apply list_elem_of_split_length in Hs as (s1 & s2 & -> & Hj).
  apply list_elem_of_split_length in Hd as (d1 & d2 & -> & Hj').
  rewrite !length_app in Hlen. simpl in Hlen.
  unfold expandable. rewrite strip_ones_keep by done.
  rewrite !rev_app_distr. simpl. rewrite <-!app_assoc. simpl.
  apply expandable_rev_mismatch; [|done|done].
  rewrite !length_rev. lia.
Qed.

Section more.

Context {V : Type}.
Implicit Types (old_net new_net : @net V) (t param old_param : tensor V).

Lemma named_dict_fresh (l : @net V) (acc : gmap string (tensor V)) key :
  key ∉ l.*1 → foldl (λ d kv, <[kv.1 := kv.2]> d) acc l !! key = acc !! key.
Proof.
  revert acc. induction l as [|[k v] l IH]; intros acc; csimpl; [done|].
  rewrite not_elem_of_cons. intros [Hne Hnin].
  rewrite IH by done. by rewrite lookup_insert_ne.
Qed.

(** With distinct names, the dictionary gives back each parameter. *)
Lemma named_dict_lookup old_net key t :
  NoDup old_net.*1 → (key, t) ∈ old_net → named_dict old_net !! key = Some t.
Proof.
  unfold named_dict. generalize (∅ : gmap string (tensor V)) as acc.
  induction old_net as [|[k v] l IH]; intros acc; csimpl.
  { by intros _ ?%elem_of_nil. }
  rewrite NoDup_cons. intros [Hk Hnd] [Heq|Hin]%elem_of_cons.
  - injection Heq as -> ->. rewrite named_dict_fresh by done.
    apply lookup_insert_eq.
  - by apply IH.
Qed.

Lemma preserve_param_size (d : gmap string (tensor V)) key param p :
  preserve_param d key param = Ok p → size p = size param.
Proof.
  unfold preserve_param. destruct (d !! key) as [old_param|]; [|by intros [= <-]].
  destruct (decide (size old_param = size param)) as [Heq|Hne]; [by intros [= <-]|].
  destruct (contains "norm" key); simpl; [by intros [= <-]|].
  intros (value & _ & Hset)%res_bind_Ok.
  by apply setitem_slices_inv in Hset as (view & _ & Hsize & _).
Qed.

Lemma shrink_preserve_param_size (d : gmap string (tensor V)) key param p :
  shrink_preserve_param d key param = Ok p → size p = size param.
Proof.
  unfold shrink_preserve_param. destruct (d !! key) as [old_param|]; [|by intros [= <-]].
  destruct (decide (size old_param = size param)) as [Heq|Hne]; [by intros [= <-]|].
  destruct (contains "norm" key); simpl; [by intros [= <-]|].
  intros (o0 & _ & (n0 & _ & H)%res_bind_Ok)%res_bind_Ok.
  destruct (length (size param) =? 1)%nat.
  - apply res_bind_Ok in H as (value & _ & Hset).
    by apply setitem_slices_inv in Hset as (view & _ & Hsize & _).
  - apply res_bind_Ok in H as (o1 & _ & (n1 & _ & H)%res_bind_Ok).
    apply res_bind_Ok in H as (value & _ & Hset).
    by apply setitem_slices_inv in Hset as (view & _ & Hsize & _).
Qed.

Lemma architecture_mapM (f : gmap string (tensor V) → string → tensor V → res (tensor V))
    d new_net result :
  (∀ key param p, f d key param = Ok p → size p = size param) →
  res_mapM (λ kp, p ← f d kp.1 kp.2 ; Ok (kp.1, p)) new_net = Ok result →
  architecture result = architecture new_net.
Proof.
  intros Hf Hres. apply res_mapM_Forall2 in Hres. unfold architecture.
  induction Hres as [|[key param] [key' p] l k Hx _ IH]; [done|].
  csimpl. simpl in Hx. apply res_bind_Ok in Hx as (p' & Hp & [= -> ->]).
  rewrite IH. do 2 f_equal. by eapply Hf.
Qed.

(** X11. Whenever one of the two transplants returns, the network it
    returns has the architecture of the new network: the same
    parameter names in the same order, each of the size it has in the
    new network. *)
Theorem transplant_keeps_architecture old_net new_net result :
  preserve_parameters old_net new_net = Ok result ∨
  shrink_preserve_parameters old_net new_net = Ok result →
  architecture result = architecture new_net.
Proof.
  intros [H|H].
  - eapply (architecture_mapM preserve_param); [|exact H].
    intros key param p. apply preserve_param_size.
  - eapply (architecture_mapM shrink_preserve_param); [|exact H].
    intros key param p. apply shrink_preserve_param_size.
Qed.

(** X12. Transplanting a network with distinct parameter names onto
    itself gives the network back, with either variant. *)
Theorem transplant_self new_net :
  NoDup new_net.*1 →
  preserve_parameters new_net new_net = Ok new_net ∧
  shrink_preserve_parameters new_net new_net = Ok new_net.
Proof.
  intros Hnd.
  assert (∀ kp, kp ∈ new_net →
            named_dict new_net !! kp.1 = Some kp.2) as Hlook.
  { intros [key t] Hin. by apply named_dict_lookup. }
  split.
  - unfold preserve_parameters.
    apply res_mapM_id, Forall_forall. intros [key t] Hin.
    unfold preserve_param. rewrite (Hlook _ Hin). simpl.
    by rewrite decide_True.
  - unfold shrink_preserve_parameters.
    apply res_mapM_id, Forall_forall. intros [key t] Hin.
    unfold shrink_preserve_param. rewrite (Hlook _ Hin). simpl.
    by rewrite decide_True.
Qed.

Lemma preserve_param_idem (d : gmap string (tensor V)) key param p :
  preserve_param d key param = Ok p → preserve_param d key p = Ok p.
Proof.
  unfold preserve_param. destruct (d !! key) as [old_param|]; [|done].
  destruct (decide (size old_param = size param)) as [Heq|Hne].
  { intros [= <-]. by rewrite decide_True. }
  destruct (contains "norm" key); simpl.
  { intros [= <-]. by rewrite decide_False. }
  set (ms := zip_with Nat.min (size old_param) (size param)).
  intros (value & Hvalue & Hset)%res_bind_Ok.
  pose proof Hset as (view & Hview & Hsize & Hget)%setitem_slices_inv.
  rewrite Hsize, decide_False by done. fold ms. rewrite Hvalue. simpl.
  unfold setitem_slices in *. rewrite Hsize, Hview in *. simpl in *.
  destruct (expandable (strip_ones (size value)) view); [|done].
  rewrite <-Hset. apply tabulate_ext. intros idx Hidx.
  destruct (in_range view idx) eqn:Hv; [done|].
  rewrite Hget by done. by rewrite Hv.
Qed.

(** X13. Transplanting once more from the same old network changes
    nothing: what [preserve_parameters] returns is a fixed point. *)
Theorem preserve_parameters_idempotent old_net new_net result :
  preserve_parameters old_net new_net = Ok result →
  preserve_parameters old_net result = Ok result.
Proof.
  unfold preserve_parameters. intros H%res_mapM_Forall2.
  apply res_mapM_id. induction H as [|[key param] [key' p] l k Hx _ IH]; [done|].
  constructor; [|done]. simpl in *.
  apply res_bind_Ok in Hx as (p' & Hp & [= -> ->]).
  by rewrite (preserve_param_idem _ _ _ _ Hp).
Qed.

Lemma zip_min_l o n : Forall2 le o n → zip_with Nat.min o n = o.
Proof. induction 1 as [|a b o n Hab _ IH]; simpl; [done|]. rewrite IH. f_equal. lia. Qed.

Lemma zip_min_r o n : Forall2 le n o → zip_with Nat.min o n = n.
Proof. induction 1 as [|a b o n Hab _ IH]; simpl; [done|]. rewrite IH. f_equal. lia. Qed.

(** X14. A parameter that only grew keeps every old value at its old
    place: when no dimension of a shared parameter outside
    normalisation layers got smaller, the transplanted parameter reads
    as the old one at every index of the old one. *)
Theorem grown_parameter_keeps_old_values old_net new_net i key param old_param :
  Forall (λ kp, wf_tensor kp.2) old_net →
  Forall (λ kp, wf_tensor kp.2) new_net →
  Forall (λ kp, same_rank (named_dict old_net) kp.1 kp.2) new_net →
  new_net !! i = Some (key, param) →
  named_dict old_net !! key = Some old_param →
  contains "norm" key = false →
  Forall2 le (size old_param) (size param) →
  ∃ result param', preserve_parameters old_net new_net = Ok result ∧
    result !! i = Some (key, param') ∧
    ∀ idx, in_range (size old_param) idx = true →
      tget param' idx = tget old_param idx.
Proof.
  intros Hold Hnew Hrank Hi Hd Hnorm Hle.
  destruct (preserve_parameters_Ok old_net new_net Hold Hnew Hrank)
    as (result & Hres & Hparams).
  destruct (Hparams i key param Hi) as (param' & Hlook & _ & Htrans).
  exists result, param'. split; [done|]. split; [done|].
  unfold transplanted in Htrans. rewrite Hd, Hnorm in Htrans.
  destruct (decide (size old_param = size param)) as [Heq|Hne]; [by subst|].
  destruct Htrans as [_ Htrans]. intros idx Hidx.
  rewrite Htrans by by eapply in_range_mono.
  unfold in_overlap. by rewrite zip_min_l, Hidx.
Qed.

(** X15. A parameter that only shrank holds old values only: when no
    dimension of a shared parameter outside normalisation layers got
    larger, the transplanted parameter reads as the old one at every
    index it has, and nothing of the fresh initialisation is left. *)
Theorem shrunk_parameter_holds_old_values old_net new_net i key param old_param :
  Forall (λ kp, wf_tensor kp.2) old_net →
  Forall (λ kp, wf_tensor kp.2) new_net →
  Forall (λ kp, same_rank (named_dict old_net) kp.1 kp.2) new_net →
  new_net !! i = Some (key, param) →
  named_dict old_net !! key = Some old_param →
  contains "norm" key = false →
  Forall2 le (size param) (size old_param) →
  ∃ result param', preserve_parameters old_net new_net = Ok result ∧
    result !! i = Some (key, param') ∧
    ∀ idx, in_range (size param) idx = true →
      tget param' idx = tget old_param idx.
Proof.
  intros Hold Hnew Hrank Hi Hd Hnorm Hle.
  destruct (preserve_parameters_Ok old_net new_net Hold Hnew Hrank)
    as (result & Hres & Hparams).
  destruct (Hparams i key param Hi) as (param' & Hlook & _ & Htrans).
  exists result, param'. split; [done|]. split; [done|].
  unfold transplanted in Htrans. rewrite Hd, Hnorm in Htrans.
  destruct (decide (size old_param = size param)) as [Heq|Hne]; [by subst|].
  destruct Htrans as [_ Htrans]. intros idx Hidx.
  rewrite Htrans by done.
  unfold in_overlap. by rewrite zip_min_r, Hidx.
Qed.

(** X16. The shrinking copy raises [RuntimeError] on a shared parameter
    outside normalisation layers, of equal rank in both networks, that
    has a dimension past the first two whose old length is neither one
    nor the new length: the slice of the old parameter then does not
    fit the slice of the new one. *)
Theorem shrink_raises_past_two_dimensions (d : gmap string (tensor V))
    key param old_param j a b :
  d !! key = Some old_param → contains "norm" key = false →
  wf_tensor old_param →
  length (size old_param) = length (size param) →
  (2 ≤ j)%nat → size old_param !! j = Some a → size param !! j = Some b →
  a ≠ b → a ≠ 1%nat →
  shrink_preserve_param d key param = Raise RuntimeError.
Proof.
  intros Hd Hnorm Hwf Hrank Hj Ha Hb Hab Ha1.
  unfold shrink_preserve_param. rewrite Hd.
  rewrite decide_False by (intros Heq; rewrite Heq, Hb in Ha; congruence).
  rewrite Hnorm. simpl.
  destruct (size old_param) as [|o0 [|o1 orest]] eqn:Ho;
    [done|destruct j as [|[|j]]; (done || lia)|].
  destruct (size param) as [|n0 [|n1 nrest]] eqn:Hn; [done|done|].
  simpl.
  destruct (getitem_slices_Ok [(o0 `min` n0)%nat; (o1 `min` n1)%nat] old_param
              (((o0 `min` n0) `min` o0)%nat :: ((o1 `min` n1) `min` o1)%nat :: orest)
              Hwf) as (value & -> & Hsv & _).
  { by rewrite Ho. }
  simpl. unfold setitem_slices. rewrite Hn. simpl. rewrite Hsv.
  rewrite (expandable_mismatch _ _ j a b); try done;
    try (simpl in *; lia);
    destruct j as [|[|j]]; (lia || done).
Qed.

End more.

Import Samples MoreSamples.

Lemma conv_ok :
  Forall (λ kp, wf_tensor kp.2) old_conv ∧
  Forall (λ kp, wf_tensor kp.2) new_conv ∧
  Forall (λ kp, same_rank (named_dict old_conv) kp.1 kp.2) new_conv.
Proof. split_and!; apply (bool_decide_unpack _); vm_compute; exact I. Qed.

Lemma transplant_keeps_architecture_witness :
  architecture grown0 = architecture new_net0.
Proof.
  apply (transplant_keeps_architecture old_net0 new_net0 grown0).
  left. vm_compute. reflexivity.
Defined.

Lemma transplant_self_witness :
  preserve_parameters new_net0 new_net0 = Ok new_net0 ∧
  shrink_preserve_parameters new_net0 new_net0 = Ok new_net0.
Proof.
  apply (transplant_self new_net0).
  apply (bool_decide_unpack _); vm_compute; exact I.
Defined.

Lemma preserve_parameters_idempotent_witness :
  preserve_parameters old_net0 grown0 = Ok grown0.
Proof.
  apply (preserve_parameters_idempotent old_net0 new_net0 grown0).
  vm_compute. reflexivity.
Defined.

Lemma grown_parameter_keeps_old_values_witness :
  ∃ result param', preserve_parameters old_net0 new_net0 = Ok result ∧
    result !! 1%nat = Some ("fc.bias", param') ∧
    ∀ idx, in_range [2]%nat idx = true →
      tget param' idx = tget {| size := [2]%nat; data := [7; 8] |} idx.
Proof.
  apply (grown_parameter_keeps_old_values old_net0 new_net0 1 "fc.bias"
           {| size := [3]%nat; data := [70; 80; 90] |}
           {| size := [2]%nat; data := [7; 8] |});
    try apply nets0_ok.
  - reflexivity.
  - vm_compute. reflexivity.
  - reflexivity.
  - repeat constructor.
Defined.

Lemma shrunk_parameter_holds_old_values_witness :
  ∃ result param', preserve_parameters old_conv new_conv = Ok result ∧
    result !! 0%nat = Some ("conv.weight", param') ∧
    ∀ idx, in_range [1; 1; 2]%nat idx = true →
      tget param' idx = tget {| size := [1; 1; 3]%nat; data := [1; 2; 3] |} idx.
Proof.
  apply (shrunk_parameter_holds_old_values old_conv new_conv 0 "conv.weight"
           {| size := [1; 1; 2]%nat; data := [10; 20] |}
           {| size := [1; 1; 3]%nat; data := [1; 2; 3] |});
    try apply conv_ok.
  - reflexivity.
  - vm_compute. reflexivity.
  - reflexivity.
  - repeat constructor.
Defined.

Lemma shrink_raises_past_two_dimensions_witness :
  shrink_preserve_param (named_dict old_conv) "conv.weight"
    {| size := [1; 1; 2]%nat; data := [10; 20] |} = Raise RuntimeError.
Proof.
  apply (shrink_raises_past_two_dimensions (named_dict old_conv) "conv.weight"
           {| size := [1; 1; 2]%nat; data := [10; 20] |}
           {| size := [1; 1; 3]%nat; data := [1; 2; 3] |} 2 3 2).
  - vm_compute. reflexivity.
  - reflexivity.
  - reflexivity.
  - reflexivity.
  - lia.
  - reflexivity.
  - reflexivity.
  - lia.
  - lia.
Defined.

End TransplantMore.

(** ** The replay buffer *)

Module ReplayBufferProps.
Import ReplayBuffer.

Lemma result_bind_Return {A B} (m : result A) (k : A → result B) b :
  m ≫= k = Return b ↔ ∃ a, m = Return a ∧ k a = Return b.
Proof.
  destruct m as [a|e]; simpl; split.
  - eauto.
  - by intros (a' & [= <-] & Hk).
  - done.
  - by intros (a' & Ha & _).
Qed.

Lemma result_mapM_Return {A B} (f : A → result B) (g : A → B) l :
  Forall (λ x, f x = Return (g x)) l → result_mapM f l = Return (g <$> l).
Proof.
  induction 1 as [|x l Hx _ IH]; [done|].
  simpl. by rewrite Hx, IH.
Qed.

Lemma result_mapM_Forall2 {A B} (f : A → result B) l k :
  result_mapM f l = Return k → Forall2 (λ x y, f x = Return y) l k.
Proof.
  revert k. induction l as [|x l IH]; intros k; simpl.
  - intros [= <-]. constructor.
  - destruct (f x) as [y|] eqn:Hy; [|done]. simpl.
    destruct (result_mapM f l) as [k'|]; [|done]. simpl.
    intros [= <-]. constructor; [done|by apply IH].
Qed.


Section buffer.

Context {F : Type}.
Implicit Types (self : MultiAgentReplayBuffer F) (args : list F).

(** What one save does when the number of fields fits. *)
Lemma save_single_Return args self :
  length args = length (field_names self) →
  save_to_memory_single_env args self =
    (Return (),
     {| memory_size := memory_size self;
        memory := deque_append (Z.to_nat (memory_size self)) (memory self) args;
        field_names := field_names self;
        counter := counter self + 1;
        device := device self;
        agent_ids := agent_ids self |}).
Proof.
  intros Hlen. unfold save_to_memory_single_env, and_then, _add.
  by rewrite decide_True.
Qed.

Lemma deque_append_drop {A} cap (d : list A) x xs :
  (length d ≤ cap)%nat →
  (length (deque_append cap d x) ≤ cap)%nat ∧
  drop (length (deque_append cap d x ++ xs) - cap) (deque_append cap d x ++ xs)
  = drop (length (d ++ x :: xs) - cap) (d ++ x :: xs).
Proof.
  intros Hle. unfold deque_append.
  destruct (Nat.ltb_spec (length d) cap) as [Hlt|Hge].
  - rewrite length_app. simpl. split; [lia|]. by rewrite <-app_assoc.
  - assert (length d = cap) as Hd by lia.
    destruct d as [|y d]; simpl in *.
    + subst cap. split; [done|]. rewrite Nat.sub_0_r. simpl.
      by rewrite drop_all.
    + rewrite length_app. simpl. split; [lia|].
      rewrite <-app_assoc. simpl. rewrite !length_app. simpl.
      replace (S (length d + S (length xs)) - cap)%nat
        with (S (length d + S (length xs) - cap)) by lia.
      done.
Qed.

(** X18. Saving experiences one after another keeps the newest
    [memory_size] of them, in order, and counts them all: after saving
    [xs], each with one value per field, the memory is the last
    [memory_size] entries of the old memory followed by [xs], its
    length never exceeds [memory_size], and the counter went up by the
    number of saves. *)
Theorem save_keeps_newest (xs : list (list F)) self :
  Forall (λ args, length args = length (field_names self)) xs →
  (length (memory self) ≤ Z.to_nat (memory_size self))%nat →
  ∃ self',
    for_each save_to_memory_single_env xs self = (Return (), self') ∧
    memory self' =
      drop (length (memory self ++ xs) - Z.to_nat (memory_size self))
           (memory self ++ xs) ∧
    __len__ self' =
      ((length (memory self) + length xs) `min` Z.to_nat (memory_size self))%nat ∧
    counter self' = counter self + Z.of_nat (length xs) ∧
    memory_size self' = memory_size self ∧ field_names self' = field_names self ∧
    agent_ids self' = agent_ids self ∧ device self' = device self.
Proof.
  intros Hxs. revert self Hxs.
  induction xs as [|x xs IH]; intros self Hxs Hcap; simpl.
  - exists self. rewrite app_nil_r. split_and!; try done.
    + rewrite (proj2 (Nat.sub_0_le _ _)) by done. done.
    + unfold __len__. lia.
    + lia.
  - apply Forall_cons in Hxs as [Hx Hxs].
    unfold and_then at 1. rewrite save_single_Return by done.
    destruct (deque_append_drop (Z.to_nat (memory_size self)) (memory self) x xs Hcap)
      as [Hcap' Hdrop].
    edestruct IH as (self' & -> & Hmem & Hlen & Hcount & Hms & Hfn & Hag & Hdev);
      [exact Hxs|exact Hcap'|].
    simpl in *. exists self'. split; [done|]. split_and!; try done.
    + by rewrite Hmem, Hdrop.
    + unfold __len__ in *. rewrite Hmem, Hdrop, length_drop, length_app. simpl. lia.
    + lia.
Qed.

(** X19. A save with another number of values than there are fields
    raises [TypeError] and leaves the buffer as it was, counter
    included; with the right number it never raises and the value
    tuple becomes the newest entry of the memory. *)
Theorem save_checks_field_count args self :
  0 < memory_size self →
  (length args ≠ length (field_names self) →
     save_to_memory_single_env args self = (Throw TypeError, self)) ∧
  (length args = length (field_names self) →
     ∃ self', save_to_memory_single_env args self = (Return (), self') ∧
       last (memory self') = Some args ∧ counter self' = counter self + 1).
Proof.
  intros Hpos. split.
  - intros Hne. unfold save_to_memory_single_env, and_then, _add.
    by rewrite decide_False.
  - intros Heq. rewrite save_single_Return by done. eexists. split; [done|].
    simpl. split; [|done]. unfold deque_append.
    destruct (Nat.ltb_spec (length (memory self)) (Z.to_nat (memory_size self))).
    + by rewrite last_snoc.
    + destruct (memory self) as [|y d] eqn:Hm; simpl in *; [lia|].
      by rewrite last_snoc.
Qed.

End buffer.

Section vectorised.

Context {E : Type} (is_ndarray : E → bool) (np_array : E → E).

Lemma entry_dict_Return i arg :
  Forall (λ kv, i < length kv.2)%nat arg →
  ∃ d, entry_dict is_ndarray np_array i arg = Return d ∧ is_entry_of (to_ndarray is_ndarray np_array) i arg d.
Proof.
  unfold is_entry_of.
  induction 1 as [|[k v] arg Hkv _ (d & Hd & IH)]; simpl.
  { exists []. split; [done|constructor]. }
  simpl in Hkv. destruct (lookup_lt_is_Some_2 v i Hkv) as [x Hx].
  unfold entry_dict in *. simpl. rewrite Hx. simpl. rewrite Hd. simpl.
  eexists. split; [done|]. constructor; [|done]. simpl. split; [done|]. by exists x.
Qed.

Lemma reorganize_entry_Return i args j pre cur :
  Forall (λ arg, ∃ d, entry_dict is_ndarray np_array i arg = Return d) args →
  length pre = j → length cur = length args →
  reorganize_entry is_ndarray np_array i args j (pre ++ cur) =
    Return (pre ++ zip_with (λ r arg, r ++ [the_entry is_ndarray np_array i arg]) cur args).
Proof.
  intros Hargs. revert j pre cur.
  induction Hargs as [|arg args [d Hd] _ IH]; intros j pre cur Hj Hlen; simpl.
  { destruct cur; [done|done]. }
  destruct cur as [|r cur]; [done|]. injection Hlen as Hlen.
  rewrite Hd. simpl.
  replace j with (length pre + 0)%nat by lia.
  rewrite alter_app_r. simpl.
  rewrite (cons_middle _ pre cur), app_assoc.
  rewrite IH; [|rewrite length_app; simpl; lia|done].
  rewrite <-app_assoc. simpl. unfold the_entry. by rewrite Hd.
Qed.

Lemma reorganize_loop_Return entries args results :
  Forall (λ i, Forall (λ arg, ∃ d, entry_dict is_ndarray np_array i arg = Return d) args) entries →
  length results = length args →
  reorganize_loop is_ndarray np_array entries args results =
    Return (zip_with (λ r arg, r ++ ((λ i, the_entry is_ndarray np_array i arg) <$> entries))
                     results args).
Proof.
  intros Hentries. revert results.
  induction Hentries as [|i entries Hi _ IH]; intros results Hlen; simpl.
  { f_equal. clear -Hlen. revert args Hlen.
    induction results as [|r results IH]; intros [|arg args]; simpl; try done.
    intros [= Hlen]. by rewrite app_nil_r, <-IH. }
  pose proof (reorganize_entry_Return i args 0 [] results Hi eq_refl Hlen) as Hstep.
  simpl in Hstep. rewrite Hstep. simpl.
  rewrite IH by (rewrite length_zip_with; lia). f_equal.
  clear. revert args.
  induction results as [|r results IH]; intros [|arg args]; simpl; try done.
  by rewrite <-app_assoc, IH.
Qed.

(** X20. [_reorganize_dicts] turns batched arguments into entries: when
    every array of every argument has at least as many entries as the
    first array of the first argument, [n] say, it returns one list
    per argument, each with [n] dictionaries, the [i]-th of which maps
    every agent to entry [i] of its array (made an [np.ndarray] when it
    is none). *)
Theorem reorganize_dicts_entries
    (first : list (string * list E)) rest (v : list E) vs :
  dict_values first = v :: vs →
  Forall (λ arg, Forall (λ kv, length v ≤ length kv.2)%nat arg) (first :: rest) →
  ∃ results,
    _reorganize_dicts is_ndarray np_array (first :: rest) = Return results ∧
    Forall2 (λ arg rs,
        length rs = length v ∧
        ∀ i d, rs !! i = Some d → is_entry_of (to_ndarray is_ndarray np_array) i arg d)
      (first :: rest) results.
Proof.
  intros Hv Hargs. unfold _reorganize_dicts. simpl. rewrite Hv. simpl.
  set (args := first :: rest) in *.
  assert (Forall (λ i, Forall (λ arg, ∃ d, entry_dict is_ndarray np_array i arg = Return d
                                ∧ is_entry_of (to_ndarray is_ndarray np_array) i arg d) args)
                 (seq 0 (length v))) as Hall.
  { apply Forall_seq. intros i [_ Hi].
    eapply Forall_impl; [exact Hargs|]. intros arg Harg.
    apply entry_dict_Return. eapply Forall_impl; [exact Harg|].
    intros kv Hkv. simpl in *. lia. }
  change ([] :: replicate (length rest) [])
    with (replicate (length args) ([] : list (list (string * E)))).
  rewrite reorganize_loop_Return.
  2:{ eapply Forall_impl; [exact Hall|]. intros i Hi.
      eapply Forall_impl; [exact Hi|]. intros arg (d & Hd & _). by exists d. }
  2:{ by rewrite length_replicate. }
  eexists. split; [done|].
  generalize dependent args. intros args _ Hall.
  induction args as [|arg args IH]; simpl; [constructor|].
  constructor.
  - split; [by rewrite length_fmap, length_seq|].
    intros i d. rewrite list_lookup_fmap.
    destruct (seq 0 (length v) !! i) as [i'|] eqn:Hi; [|done]. simpl.
    intros [= <-]. apply lookup_seq in Hi as [-> Hi]. simpl.
    rewrite Forall_forall in Hall.
    pose proof (Hall i) as Hi'. rewrite Forall_cons in Hi'.
    destruct Hi' as [(d & Hd & Hentry) _]; [apply elem_of_seq; lia|].
    unfold the_entry. by rewrite Hd.
  - apply IH. eapply Forall_impl; [exact Hall|].
    intros i Hi. by apply Forall_cons in Hi as [_ ?].
Qed.

Lemma omap_lookup_length {A} (ls : list (list A)) i n :
  Forall (λ l, length l = n) ls → (i < n)%nat →
  length (omap (λ l', l' !! i) ls) = length ls.
Proof.
  intros Hall Hi. induction Hall as [|l1 ls1 Hl1 _ IH]; csimpl; [done|].
  destruct (lookup_lt_is_Some_2 l1 i) as [x Hx]; [lia|].
  rewrite Hx. csimpl. by rewrite IH.
Qed.

Lemma zip_star_uniform {A} (ls : list (list A)) n :
  ls ≠ [] → Forall (λ l, length l = n) ls →
  length (zip_star ls) = n ∧ Forall (λ t, length t = length ls) (zip_star ls).
Proof.
  destruct ls as [|l ls']; [done|]. intros _ Hall. unfold zip_star.
  assert (foldr (λ l' m, length l' `min` m)%nat (length l) ls' = n) as ->.
  { apply Forall_cons in Hall as [Hl Hall']. rewrite Hl. clear -Hall'.
    induction Hall' as [|l1 ls1 Hl1 _ IH]; simpl; [done|]. rewrite IH. lia. }
  split; [by rewrite length_fmap, length_seq|].
  apply Forall_fmap, Forall_seq. intros i [_ Hi]. unfold compose.
  apply (omap_lookup_length _ i n); [done|lia].
Qed.

(** X21. A vectorised save of [n] environments stores [n] experiences:
    when the arrays are long enough and there is one argument per
    field, the transitions of the reorganised arguments are appended
    in order, oldest entries making room as in single saves, and the
    counter goes up by [n]. *)
Theorem save_vect_stores_every_entry
    (first : list (string * list E)) rest (v : list E) vs
    (self : MultiAgentReplayBuffer (list (string * E))) :
  dict_values first = v :: vs →
  Forall (λ arg, Forall (λ kv, length v ≤ length kv.2)%nat arg) (first :: rest) →
  length (first :: rest) = length (field_names self) →
  (length (memory self) ≤ Z.to_nat (memory_size self))%nat →
  ∃ results self',
    _reorganize_dicts is_ndarray np_array (first :: rest) = Return results ∧
    save_to_memory_vect_envs is_ndarray np_array (first :: rest) self
      = (Return (), self') ∧
    length (zip_star results) = length v ∧
    memory self' =
      drop (length (memory self ++ zip_star results) - Z.to_nat (memory_size self))
           (memory self ++ zip_star results) ∧
    __len__ self' =
      ((length (memory self) + length v) `min` Z.to_nat (memory_size self))%nat ∧
    counter self' = counter self + Z.of_nat (length v).
Proof.
  intros Hv Hargs Harity Hcap.
  destruct (reorganize_dicts_entries first rest v vs Hv Hargs)
    as (results & Hres & Hentries).
  assert (length results = length (first :: rest)) as Hlen.
  { symmetry. by eapply Forall2_length. }
  destruct (zip_star_uniform results (length v)) as [Hn Hts].
  { intros ->. done. }
  { clear -Hentries. induction Hentries as [|???? [? _] _ IH]; by constructor. }
  destruct (save_keeps_newest (zip_star results) self)
    as (self' & Hsave & Hmem & Hl & Hc & _); [|done|].
  { eapply Forall_impl; [exact Hts|]. intros t Ht. simpl in *. congruence. }
  exists results, self'. unfold save_to_memory_vect_envs. rewrite Hres.
  split; [done|]. split; [exact Hsave|]. rewrite Hn in Hl, Hc. by split_and!.
Qed.

(** X22. The edges of a vectorised save. A batch whose first array is
    empty stores nothing and raises nothing, whatever the number of
    arguments; a batch of at least one entry with another number of
    arguments than there are fields raises [TypeError] at the first
    entry and leaves the buffer as it was. *)
Theorem save_vect_edges
    (first : list (string * list E)) rest (v : list E) vs
    (self : MultiAgentReplayBuffer (list (string * E))) :
  dict_values first = v :: vs →
  Forall (λ arg, Forall (λ kv, length v ≤ length kv.2)%nat arg) (first :: rest) →
  (v = [] →
     save_to_memory_vect_envs is_ndarray np_array (first :: rest) self
       = (Return (), self)) ∧
  (v ≠ [] → length (first :: rest) ≠ length (field_names self) →
     save_to_memory_vect_envs is_ndarray np_array (first :: rest) self
       = (Throw TypeError, self)).
Proof.
  intros Hv Hargs.
  destruct (reorganize_dicts_entries first rest v vs Hv Hargs)
    as (results & Hres & Hentries).
  assert (length results = length (first :: rest)) as Hlen.
  { symmetry. by eapply Forall2_length. }
  destruct (zip_star_uniform results (length v)) as [Hn Hts].
  { intros ->. done. }
  { clear -Hentries. induction Hentries as [|???? [? _] _ IH]; by constructor. }
  unfold save_to_memory_vect_envs. rewrite Hres. split.
  - intros ->. simpl in Hn. apply length_zero_iff_nil in Hn. by rewrite Hn.
  - intros Hne Harity.
    destruct (zip_star results) as [|t ts]; simpl in Hn.
    { destruct v; [done|simpl in Hn; lia]. }
    apply Forall_cons in Hts as [Ht _]. simpl.
    unfold and_then, _add. rewrite decide_False; [done|]. congruence.
Qed.

End vectorised.

Import MoreSamples.

Lemma save_keeps_newest_witness :
  ∃ self',
    for_each save_to_memory_single_env [[3; 4]; [5; 6]] buffer0 = (Return (), self') ∧
    memory self' =
      drop (length (memory buffer0 ++ [[3; 4]; [5; 6]]) - Z.to_nat (memory_size buffer0))
           (memory buffer0 ++ [[3; 4]; [5; 6]]) ∧
    __len__ self' =
      ((length (memory buffer0) + length [[3; 4]; [5; 6]])
         `min` Z.to_nat (memory_size buffer0))%nat ∧
    counter self' = counter buffer0 + Z.of_nat (length [[3; 4]; [5; 6]]) ∧
    memory_size self' = memory_size buffer0 ∧
    field_names self' = field_names buffer0 ∧
    agent_ids self' = agent_ids buffer0 ∧ device self' = device buffer0.
Proof.
  apply (save_keeps_newest [[3; 4]; [5; 6]] buffer0).
  - repeat constructor.
  - simpl. lia.
Defined.

(** The buffer of capacity two keeps the two newest of three
    experiences and has counted all three. *)
Example save_sample :
  (for_each save_to_memory_single_env [[3; 4]; [5; 6]] buffer0).2 =
    {| memory_size := 2; memory := [[3; 4]; [5; 6]];
       field_names := ["state"; "reward"]; counter := 3;
       device := None; agent_ids := ["agent_0"] |}.
Proof. reflexivity. Qed.

Lemma save_checks_field_count_witness :
  (length [3; 4; 5] ≠ length (field_names buffer0) →
     save_to_memory_single_env [3; 4; 5] buffer0 = (Throw TypeError, buffer0)) ∧
  (length [3; 4; 5] = length (field_names buffer0) →
     ∃ self', save_to_memory_single_env [3; 4; 5] buffer0 = (Return (), self') ∧
       last (memory self') = Some [3; 4; 5] ∧ counter self' = counter buffer0 + 1).
Proof.
  apply (save_checks_field_count [3; 4; 5] buffer0). reflexivity.
Defined.

Lemma reorganize_dicts_entries_witness :
  ∃ results,
    _reorganize_dicts (λ _, true) id [batch_states; batch_rewards] = Return results ∧
    Forall2 (λ arg rs,
        length rs = length [11; 12] ∧
        ∀ i d, rs !! i = Some d → is_entry_of (to_ndarray (λ _, true) id) i arg d)
      [batch_states; batch_rewards] results.
Proof.
  apply (reorganize_dicts_entries (λ _, true) id batch_states [batch_rewards]
           [11; 12] [[21; 22]]).
  - reflexivity.
  - repeat constructor.
Defined.

Lemma save_vect_stores_every_entry_witness :
  ∃ results self',
    _reorganize_dicts (λ _, true) id [batch_states; batch_rewards] = Return results ∧
    save_to_memory_vect_envs (λ _, true) id [batch_states; batch_rewards] vect_buffer0
      = (Return (), self') ∧
    length (zip_star results) = length [11; 12] ∧
    memory self' =
      drop (length (memory vect_buffer0 ++ zip_star results)
            - Z.to_nat (memory_size vect_buffer0))
           (memory vect_buffer0 ++ zip_star results) ∧
    __len__ self' =
      ((length (memory vect_buffer0) + length [11; 12])
         `min` Z.to_nat (memory_size vect_buffer0))%nat ∧
    counter self' = counter vect_buffer0 + Z.of_nat (length [11; 12]).
Proof.
  apply (save_vect_stores_every_entry (λ _, true) id batch_states [batch_rewards]
           [11; 12] [[21; 22]] vect_buffer0).
  - reflexivity.
  - repeat constructor.
  - reflexivity.
  - simpl. lia.
Defined.

(** The batch of two environments becomes two experiences, each one
    dictionary per field. *)
Example save_vect_sample :
  memory (save_to_memory_vect_envs (λ _, true) id
            [batch_states; batch_rewards] vect_buffer0).2 =
    [ [ [("agent_0", 11); ("agent_1", 21)]; [("agent_0", 1); ("agent_1", 0)] ];
      [ [("agent_0", 12); ("agent_1", 22)]; [("agent_0", 0); ("agent_1", 1)] ] ].
Proof. reflexivity. Qed.

Lemma save_vect_edges_witness :
  ([11; 12] = [] →
     save_to_memory_vect_envs (λ _, true) id [batch_states] vect_buffer0
       = (Return (), vect_buffer0)) ∧
  ([11; 12] ≠ [] → length [batch_states] ≠ length (field_names vect_buffer0) →
     save_to_memory_vect_envs (λ _, true) id [batch_states] vect_buffer0
       = (Throw TypeError, vect_buffer0)).
Proof.
  apply (save_vect_edges (λ _, true) id batch_states [] [11; 12] [[21; 22]]
           vect_buffer0).
  - reflexivity.
  - repeat constructor.
Defined.

End ReplayBufferProps.
